(** * Smart_Storage: the scan-and-hash pipeline and the duplicate analyzer

    A shallow embedding of [scanner/duplicate_finder.py],
    [scanner/hash_utils.py], [scanner/scanner.py] and the index-writing
    part of [cli/scan.py], followed by the properties the specification
    states about them. *)

From Stdlib Require Import List String Ascii Bool Arith ZArith NArith Lia.
From Stdlib Require Import Strings.Byte DecimalString.
Import ListNotations.

Local Open Scope string_scope.
Local Open Scope list_scope.

Set Implicit Arguments.

(** ** Python dictionaries

    A [dict] keeps its keys in insertion order and the analyzer returns
    [hash_groups.values()], so the order is part of the result: the model is
    an association list with at most one binding per key. *)

Module PyDict.
Section Dict.
Variable V : Type.

Definition dict := list (string * V).

Definition empty : dict := [].

(** [d.get(k)] *)
Fixpoint get (k : string) (d : dict) : option V :=
  match d with
  | [] => None
  | (k', v) :: d' => if String.eqb k k' then Some v else get k d'
  end.

(** [k in d] *)
Definition contains (k : string) (d : dict) : bool :=
  match get k d with Some _ => true | None => false end.

(** [d[k] = v]: an existing key keeps its position, a new key goes last. *)
Fixpoint set (k : string) (v : V) (d : dict) : dict :=
  match d with
  | [] => [(k, v)]
  | (k', v') :: d' =>
      if String.eqb k k' then (k, v) :: d' else (k', v') :: set k v d'
  end.

(** [d[k]] where the key is known to be present; [dflt] stands for the
    [KeyError] that the callers below never reach. *)
Definition getitem (dflt : V) (k : string) (d : dict) : V :=
  match get k d with Some v => v | None => dflt end.

(** [d.values()] *)
Definition values (d : dict) : list V := map snd d.

Definition keys (d : dict) : list string := map fst d.
End Dict.
End PyDict.

(** ** File records

    The analyzer reads its records with [file_info.get(key)]: a key may be
    absent, which is what [None] stands for. *)

Record FileInfo := mkFileInfo {
  path : option string;
  size : option Z;
  name : option string;
  hash : option string
}.

(** Python truthiness of the result of [.get] on a string field:
    [None] and the empty string are falsy. *)
Definition truthy (v : option string) : bool :=
  match v with
  | Some s => negb (String.eqb s "")
  | None => false
  end.

(** ** scanner/duplicate_finder.py *)

(** One iteration of the grouping loop of [find_duplicates]. *)
Definition group_file (hash_groups : PyDict.dict (list string))
           (file_info : FileInfo) : PyDict.dict (list string) :=
  let file_hash := hash file_info in
  let file_path := path file_info in
  if negb (truthy file_hash) || negb (truthy file_path) then hash_groups
  else
    match file_hash, file_path with
    | Some h, Some p =>
        let hash_groups :=
          if negb (PyDict.contains h hash_groups)
          then PyDict.set h [] hash_groups
          else hash_groups in
        PyDict.set h (PyDict.getitem [] h hash_groups ++ [p]) hash_groups
    | _, _ => hash_groups
    end.

(** The dictionary [hash_groups] when the loop is over. *)
Definition hash_groups_of (file_metadata : list FileInfo)
  : PyDict.dict (list string) :=
  fold_left group_file file_metadata (PyDict.empty _).

Definition find_duplicates (file_metadata : list FileInfo)
  : list (list string) :=
  let hash_groups := hash_groups_of file_metadata in
  filter (fun paths => Nat.ltb 1 (List.length paths))
         (PyDict.values hash_groups).

Record DuplicateCount := mkDuplicateCount { groups : nat; files : nat }.

Definition count_duplicates (file_metadata : list FileInfo) : DuplicateCount :=
  let duplicate_groups := find_duplicates file_metadata in
  let total_duplicate_files :=
    fold_left (fun acc group => acc + List.length group)%nat
              duplicate_groups 0%nat in
  {| groups := List.length duplicate_groups; files := total_duplicate_files |}.

(** The per-digest entry [{"count": ..., "size": ...}] of
    [calculate_wasted_space]. *)
Record GroupInfo := mkGroupInfo { count : Z; gsize : Z }.

Definition count_file (hash_groups : PyDict.dict GroupInfo)
           (file_info : FileInfo) : PyDict.dict GroupInfo :=
  let file_hash := hash file_info in
  let file_size := match size file_info with Some n => n | None => 0%Z end in
  if negb (truthy file_hash) then hash_groups
  else
    match file_hash with
    | Some h =>
        let hash_groups :=
          if negb (PyDict.contains h hash_groups)
          then PyDict.set h {| count := 0; gsize := file_size |} hash_groups
          else hash_groups in
        let g := PyDict.getitem {| count := 0; gsize := 0 |} h hash_groups in
        PyDict.set h {| count := count g + 1; gsize := gsize g |} hash_groups
    | None => hash_groups
    end.

Definition size_groups_of (file_metadata : list FileInfo)
  : PyDict.dict GroupInfo :=
  fold_left count_file file_metadata (PyDict.empty _).

Definition calculate_wasted_space (file_metadata : list FileInfo) : Z :=
  let hash_groups := size_groups_of file_metadata in
  fold_left
    (fun wasted_space group_info =>
       if (1 <? count group_info)%Z
       then (wasted_space + (count group_info - 1) * gsize group_info)%Z
       else wasted_space)
    (PyDict.values hash_groups) 0%Z.


(** ** hashlib.sha256

    The accumulator of the Python standard library.  [SHA256.digest] is
    FIPS 180-4 over 32-bit words kept in [N]; the object itself follows the
    documented contract of [hashlib]: repeated calls of [update] are
    equivalent to one call with the concatenation of the arguments. *)

Module SHA256.
Local Open Scope N_scope.

Definition mask32 : N := 0xffffffff.
Definition w32 (x : N) : N := N.land x mask32.
Definition add32 (x y : N) : N := w32 (x + y).
Definition rotr (n x : N) : N :=
  N.lor (N.shiftr x n) (w32 (N.shiftl x (32 - n))).
Definition shr (n x : N) : N := N.shiftr x n.
Definition not32 (x : N) : N := N.lxor x mask32.

Definition Ch (x y z : N) : N := N.lxor (N.land x y) (N.land (not32 x) z).
Definition Maj (x y z : N) : N :=
  N.lxor (N.lxor (N.land x y) (N.land x z)) (N.land y z).
Definition Sigma0 (x : N) := N.lxor (N.lxor (rotr 2 x) (rotr 13 x)) (rotr 22 x).
Definition Sigma1 (x : N) := N.lxor (N.lxor (rotr 6 x) (rotr 11 x)) (rotr 25 x).
Definition sigma0 (x : N) := N.lxor (N.lxor (rotr 7 x) (rotr 18 x)) (shr 3 x).
Definition sigma1 (x : N) := N.lxor (N.lxor (rotr 17 x) (rotr 19 x)) (shr 10 x).

(** The constants are defined as FIPS 180-4 defines them: the first 32
    bits of the fractional parts of the cube roots (for [K]) and of the
    square roots (for [H0]) of the first primes. *)
Definition is_prime (n : nat) : bool :=
forallb (fun d => negb (Nat.eqb (Nat.modulo n d) 0)) (seq 2 (n - 2)).

Definition primes (how_many : nat) : list N :=
map N.of_nat (firstn how_many (filter is_prime (seq 2 400))).

(** The integer [e]-th root of [n], found bit by bit below [2 ^ bits]. *)
Fixpoint iroot (e : N) (bits : nat) (n r : N) : N :=
match bits with
| O => r
| S b =>
    let c := r + 2 ^ N.of_nat b in
    iroot e b n (if c ^ e <=? n then c else r)
end.

Definition root_fraction (e p : N) : N :=
w32 (iroot e 40 (p * 2 ^ (32 * e)) 0).

Definition K : list N :=
Eval vm_compute in map (root_fraction 3) (primes 64).

(** The eight working words. *)
Record state := mkState {
ha : N; hb : N; hc : N; hd : N; he : N; hf : N; hg : N; hh : N
}.

Definition H0 : state :=
Eval vm_compute in
  match map (root_fraction 2) (primes 8) with
  | [a; b; c; d; e; f; g; h] => mkState a b c d e f g h
  | _ => mkState 0 0 0 0 0 0 0 0
  end.

(** Big-endian bytes of the low [8 * n] bits of [x]. *)
Fixpoint be_bytes (n : nat) (x : N) : list N :=
  match n with
  | O => []
  | S n' => N.land (N.shiftr x (8 * N.of_nat n')) 0xff :: be_bytes n' x
  end.

Definition pad (msg : list N) : list N :=
  let len := N.of_nat (List.length msg) in
  let zeros := (119 - len mod 64) mod 64 in
  msg ++ [0x80] ++ repeat 0 (N.to_nat zeros) ++ be_bytes 8 (8 * len).

Fixpoint be_words (bs : list N) : list N :=
  match bs with
  | b0 :: b1 :: b2 :: b3 :: rest =>
      (N.shiftl b0 24 + N.shiftl b1 16 + N.shiftl b2 8 + b3) :: be_words rest
  | _ => []
  end.

(** [extend n w] appends [n] further words of the message schedule. *)
Fixpoint extend (n : nat) (w : list N) : list N :=
  match n with
  | O => w
  | S n' =>
      let t := List.length w in
      let at_ (k : nat) := nth (t - k) w 0 in
      extend n'
        (w ++ [add32 (add32 (sigma1 (at_ 2%nat)) (at_ 7%nat))
                    (add32 (sigma0 (at_ 15%nat)) (at_ 16%nat))])
  end.

Definition round (s : state) (kw : N * N) : state :=
  let (k, w) := kw in
  let T1 := add32 (add32 (add32 (hh s) (Sigma1 (he s)))
                         (add32 (Ch (he s) (hf s) (hg s)) k)) w in
  let T2 := add32 (Sigma0 (ha s)) (Maj (ha s) (hb s) (hc s)) in
  mkState (add32 T1 T2) (ha s) (hb s) (hc s)
          (add32 (hd s) T1) (he s) (hf s) (hg s).

Definition compress (s : state) (block : list N) : state :=
  let w := extend 48 (be_words block) in
  let r := fold_left round (combine K w) s in
  mkState (add32 (ha s) (ha r)) (add32 (hb s) (hb r))
          (add32 (hc s) (hc r)) (add32 (hd s) (hd r))
          (add32 (he s) (he r)) (add32 (hf s) (hf r))
          (add32 (hg s) (hg r)) (add32 (hh s) (hh r)).

Fixpoint blocks (fuel : nat) (bs : list N) : list (list N) :=
  match fuel, bs with
  | S fuel', _ :: _ => firstn 64 bs :: blocks fuel' (skipn 64 bs)
  | _, _ => []
  end.

Definition digest (msg : list byte) : state :=
  let bs := pad (map Byte.to_N msg) in
  fold_left compress (blocks (List.length bs) bs) H0.

Definition hex_digit (x : N) : ascii :=
  match String.get (N.to_nat (N.land x 0xf)) "0123456789abcdef" with
  | Some c => c
  | None => "0"%char
  end.

Definition hex8 (x : N) : string :=
  string_of_list_ascii
    (map (fun sh => hex_digit (N.shiftr x sh)) [28; 24; 20; 16; 12; 8; 4; 0]).

Definition hex (s : state) : string :=
  (hex8 (ha s) ++ hex8 (hb s) ++ hex8 (hc s) ++ hex8 (hd s) ++
   hex8 (he s) ++ hex8 (hf s) ++ hex8 (hg s) ++ hex8 (hh s))%string.

Definition hexdigest_of (msg : list byte) : string := hex (digest msg).
End SHA256.

Module hashlib.
(** A [hashlib.sha256()] object: the bytes fed to it so far. *)
Record sha256_obj := mk_sha256 { fed : list byte }.

Definition sha256 : sha256_obj := mk_sha256 [].

Definition update (h : sha256_obj) (chunk : list byte) : sha256_obj :=
  mk_sha256 (fed h ++ chunk).

Definition hexdigest (h : sha256_obj) : string :=
  SHA256.hexdigest_of (fed h).
End hashlib.


(** ** Exceptions

    The classes the source raises or catches.  All of them except
    [ValueError] are [OSError] or one of its subclasses, which is what
    [except (PermissionError, OSError)] and [except (OSError, IOError)]
    catch. *)

Inductive ExcClass :=
| ValueError | OSError | PermissionError | FileNotFoundError
| NotADirectoryError.

Record Exception := mkExc { exc_class : ExcClass; exc_msg : string }.

Inductive Result (A : Type) :=
| Ok (a : A)
| Raise (e : Exception).
Arguments Ok {A} a.
Arguments Raise {A} e.

Definition is_os_error (e : Exception) : bool :=
  match exc_class e with
  | ValueError => false
  | _ => true
  end.

(** ** The file system seen by a scan

    A finite tree.  A regular file carries what [stat], [open] and [read]
    do on it; a directory carries its listing, or nothing when listing it
    fails; [NOther] is an entry that is neither (socket, device, broken
    link); [NDenied] is an entry that cannot even be examined: [is_dir],
    [is_file], [exists] and [stat] raise [PermissionError] on it. *)

Record FileData := mkFileData {
  st_size : option N;        (* [None]: [stat()] raises [OSError] *)
  open_ok : bool;            (* [false]: [open("rb")] raises [OSError] *)
  content : list byte;
  read_fault : option nat    (* [Some k]: the call number [k] of [read],
                                counted from 0, raises [OSError] *)
}.

#[local] Set Warnings "-register-all".
Inductive Node :=
| NFile (d : FileData)
| NDir (listing : option (list (string * Node)))
| NOther
| NDenied.

Definition permission_denied : Exception := mkExc PermissionError "Permission denied".
Definition io_error : Exception := mkExc OSError "Input/output error".

(** ** pathlib

    A path is its anchor and its components.  The functions that consult
    the file system take, next to the path, what the path refers to there
    ([None]: nothing). *)

Module Path.
Record t := mk { anchored : bool; parts : list string }.

(** Components of a path string: split at ['/'], without the empty
    components and without ["."]. *)
Fixpoint split (s : string) (cur : string) : list string :=
  match s with
  | EmptyString => [cur]
  | String c s' =>
      if Ascii.eqb c "/" then cur :: split s' ""
      else split s' (cur ++ String c "")
  end.

Definition of_string (s : string) : t :=
  mk (String.prefix "/" s)
     (filter (fun c => negb (String.eqb c "" || String.eqb c "."))
             (split s "")).

(** [path / name] *)
Definition joinpath (p : t) (entry : string) : t :=
  mk (anchored p) (parts p ++ [entry]).

(** [path.name] *)
Definition name (p : t) : string := last (parts p) "".

(** [str(path)] *)
Definition str (p : t) : string :=
  if anchored p then "/" ++ String.concat "/" (parts p)
  else match parts p with
       | [] => "."
       | _ => String.concat "/" (parts p)
       end.

(** [path.absolute()], [cwd] being the components of the current
    directory. *)
Definition absolute (cwd : list string) (p : t) : t :=
  if anchored p then p else mk true (cwd ++ parts p).

Definition exists_ (target : option Node) : Result bool :=
  match target with
  | None => Ok false
  | Some NDenied => Raise permission_denied
  | Some _ => Ok true
  end.

Definition is_dir (target : option Node) : Result bool :=
  match target with
  | Some (NDir _) => Ok true
  | Some NDenied => Raise permission_denied
  | _ => Ok false
  end.

Definition is_file (target : option Node) : Result bool :=
  match target with
  | Some (NFile _) => Ok true
  | Some NDenied => Raise permission_denied
  | _ => Ok false
  end.

(** [path.stat().st_size]; the size reported for what is not a regular
    file is never used. *)
Definition stat_size (target : Node) : Result N :=
  match target with
  | NFile d =>
      match st_size d with
      | Some n => Ok n
      | None => Raise io_error
      end
  | NDenied => Raise permission_denied
  | _ => Ok 0%N
  end.

(** What [path.iterdir()] raises on a node that cannot be listed. *)
Definition iterdir_error (target : Node) : Exception :=
  match target with
  | NFile _ | NOther => mkExc NotADirectoryError "Not a directory"
  | _ => permission_denied
  end.
End Path.

(** ** Open files *)

Record Handle := mkHandle {
  remaining : list byte;
  reads : nat;
  fault : option nat
}.

Definition open_rb (d : FileData) : Result Handle :=
  if open_ok d then Ok (mkHandle (content d) 0 (read_fault d))
  else Raise io_error.

(** The first [n] bytes of [l] and the rest. *)
Fixpoint take (n : N) (l : list byte) : list byte * list byte :=
  match l with
  | [] => ([], [])
  | b :: l' =>
      if N.eqb n 0 then ([], l)
      else let (chunk, rest) := take (N.pred n) l' in (b :: chunk, rest)
  end.

(** [f.read(n)] on a regular file: the next [n] bytes, fewer at the end of
    the file, none after it. *)
Definition read (n : N) (f : Handle) : Result (list byte) * Handle :=
  let f' := mkHandle (remaining f) (S (reads f)) (fault f) in
  match fault f with
  | Some k =>
      if Nat.eqb k (reads f) then (Raise io_error, f')
      else let (chunk, rest) := take n (remaining f) in
           (Ok chunk, mkHandle rest (S (reads f)) (fault f))
  | None =>
      let (chunk, rest) := take n (remaining f) in
      (Ok chunk, mkHandle rest (S (reads f)) (fault f))
  end.

(** ** scanner/hash_utils.py *)

Definition CHUNK_SIZE : N := 1024 * 1024.

(** [for chunk in iter(lambda: f.read(n), b""): sha256.update(chunk)].
    [None] is the loop running out of [fuel]. *)
Fixpoint update_chunks (fuel : nat) (n : N) (f : Handle)
         (sha256 : hashlib.sha256_obj)
  : option (Result hashlib.sha256_obj) :=
  match fuel with
  | O => None
  | S fuel' =>
      match read n f with
      | (Raise e, _) => Some (Raise e)
      | (Ok [], _) => Some (Ok sha256)
      | (Ok chunk, f') => update_chunks fuel' n f' (hashlib.update sha256 chunk)
      end
  end.

(** Every iteration but the last consumes at least one byte, so one more
    iteration than there are bytes is enough (lemma [update_chunks_fuel]). *)
Definition generate_file_hash (target : option Node) : Result string :=
  match Path.is_file target with
  | Raise e => Raise e
  | Ok false => Ok ""
  | Ok true =>
      match target with
      | Some (NFile d) =>
          let sha256 := hashlib.sha256 in
          let streamed :=
            match open_rb d with
            | Raise e => Some (Raise e)
            | Ok f => update_chunks (S (List.length (content d))) CHUNK_SIZE f sha256
            end in
          match streamed with
          | Some (Ok sha256) => Ok (hashlib.hexdigest sha256)
          | Some (Raise e) => if is_os_error e then Ok "" else Raise e
          | None => Ok ""
          end
      | _ => Ok ""
      end
  end.


(** ** scanner/scanner.py

    A [FileScanner] holds [scanned_files]; the progress callback is a
    caller-supplied procedure with a state of its own ([S]).  It is called
    with the message and may look at the scanner it closes over, as the
    callback of [ui/app.py] does with [get_file_count()]; it returns
    normally and does not assign to the scanner. *)

Section Scanner.
Variable S : Type.

Definition Sink := list FileInfo -> string -> S -> S.

Record Scanner := mkScanner {
  scanned_files : list FileInfo;
  sink_state : S
}.

(** Computations of the scanner: they read and write the scanner and the
    callback's state, and return or raise.  What was written before an
    exception stays written. *)
Definition M (A : Type) := Scanner -> Result A * Scanner.

Definition ret {A} (a : A) : M A := fun st => (Ok a, st).

Definition bind {A B} (m : M A) (k : A -> M B) : M B :=
  fun st =>
    match m st with
    | (Ok a, st') => k a st'
    | (Raise e, st') => (Raise e, st')
    end.

Definition raise {A} (e : Exception) : M A := fun st => (Raise e, st).

Definition lift {A} (r : Result A) : M A := fun st => (r, st).

(** [try: body  except (PermissionError, OSError): handler] *)
Definition try_except_os {A} (body : M A) (handler : M A) : M A :=
  fun st =>
    match body st with
    | (Ok a, st') => (Ok a, st')
    | (Raise e, st') =>
        if is_os_error e then handler st' else (Raise e, st')
    end.

(** [for x in xs: body(x)] *)
Definition for_each {A} (xs : list A) (body : A -> M unit) : M unit :=
  (fix loop (xs : list A) : M unit :=
     match xs with
     | [] => ret tt
     | x :: xs' => bind (body x) (fun _ => loop xs')
     end) xs.

Notation "x <- m ;; k" := (bind m (fun x => k))
  (at level 61, m at next level, right associativity).
Notation "m ;; k" := (bind m (fun _ => k))
  (at level 61, right associativity).

Definition get_scanned_files : M (list FileInfo) :=
  fun st => (Ok (scanned_files st), st).

Definition set_scanned_files (l : list FileInfo) : M unit :=
  fun st => (Ok tt, mkScanner l (sink_state st)).

(** [self.scanned_files.append(file_info)] *)
Definition append_scanned (file_info : FileInfo) : M unit :=
  fun st => (Ok tt, mkScanner (scanned_files st ++ [file_info]) (sink_state st)).

Variable progress_callback : option Sink.

(** [if progress_callback: progress_callback(message)] *)
Definition report (message : string) : M unit :=
  fun st =>
    match progress_callback with
    | Some callback =>
        (Ok tt, mkScanner (scanned_files st)
                          (callback (scanned_files st) message (sink_state st)))
    | None => (Ok tt, st)
    end.

Definition has_callback : bool :=
  match progress_callback with Some _ => true | None => false end.

(** The [cwd] that [absolute()] resolves a relative path against. *)
Variable cwd : list string.

Definition decimal (n : nat) : string := NilZero.string_of_uint (Nat.to_uint n).

Definition _collect_file_info (file_path : Path.t) (target : Node)
  : Result (option FileInfo) :=
  let body :=
    match Path.stat_size target with
    | Raise e => Raise e
    | Ok file_size =>
        match generate_file_hash (Some target) with
        | Raise e => Raise e
        | Ok file_hash =>
            if negb (truthy (Some file_hash)) then Ok None
            else Ok (Some {| path := Some (Path.str (Path.absolute cwd file_path));
                             size := Some (Z.of_N file_size);
                             name := Some (Path.name file_path);
                             hash := Some file_hash |})
        end
    end in
  match body with
  | Raise e => if is_os_error e then Ok None else Raise e
  | ok => ok
  end.

(** The body of the loop of [_scan_recursive] for one entry; [self] is
    the recursive call. *)
Definition scan_item (self : Path.t -> Node -> M unit)
           (item : Path.t) (target : Node) : M unit :=
  try_except_os
    (item_is_dir <- lift (Path.is_dir (Some target)) ;;
     if item_is_dir : bool then self item target
     else
       item_is_file <- lift (Path.is_file (Some target)) ;;
       if item_is_file : bool then
         report ("Scanning: " ++ Path.str item) ;;
         file_info <- lift (_collect_file_info item target) ;;
         match file_info with
         | Some file_info => append_scanned file_info
         | None => ret tt
         end ;;
         files <- get_scanned_files ;;
         if has_callback && Nat.eqb (Nat.modulo (List.length files) 100) 0
         then report ("Files found: " ++ decimal (List.length files))
         else ret tt
       else ret tt)
    (report ("Skipped (no permission): " ++ Path.str item)).

Fixpoint _scan_recursive (path : Path.t) (target : Node) {struct target}
  : M unit :=
  try_except_os
    match target with
    | NDir (Some entries) =>
        for_each entries
          (fun entry =>
             scan_item _scan_recursive
                       (Path.joinpath path (fst entry)) (snd entry))
    | unlistable => raise (Path.iterdir_error unlistable)
    end
    (report ("Skipped directory (no permission): " ++ Path.str path)).

Definition scan_directory (directory_path : string) (target : option Node)
  : M (list FileInfo) :=
  set_scanned_files [] ;;
  let path := Path.of_string directory_path in
  path_exists <- lift (Path.exists_ target) ;;
  if negb path_exists then
    raise (mkExc ValueError ("Directory does not exist: " ++ directory_path))
  else
    path_is_dir <- lift (Path.is_dir target) ;;
    if negb path_is_dir then
      raise (mkExc ValueError ("Path is not a directory: " ++ directory_path))
    else
      report "Starting scan..." ;;
      match target with
      | Some root => _scan_recursive path root
      | None => ret tt
      end ;;
      files <- get_scanned_files ;;
      report ("Scan complete! Found " ++ decimal (List.length files) ++ " files.") ;;
      get_scanned_files.
End Scanner.


Arguments mkScanner {S} scanned_files sink_state.
Arguments scanned_files {S} s.
Arguments sink_state {S} s.

(** ** cli/scan.py

    The part of [main] that decides whether the index file is written.  The
    banner and the summary that [main] also prints do not influence it and
    are left out of [stdout]; [index_file] is the content of
    [config.INDEX_FILE_PATH], [None] while the file does not exist. *)

Module cli_scan.
Record Index := mkIndex { total_files : nat; index_files : list FileInfo }.

Record Process := mkProcess {
  stdout : list string;
  index_file : option Index
}.

Definition print_progress : Sink (list string) :=
  fun _ message out => out ++ [("[INFO] " ++ message)%string].

Definition save_index_to_json (files_data : list FileInfo)
           (output_path : string) (proc : Process) : Process :=
  let index_data := mkIndex (List.length files_data) files_data in
  mkProcess (stdout proc ++ [("[INFO] Index saved to: " ++ output_path)%string])
            (Some index_data).

(** [argv] is [sys.argv]; the result is the exit status and the process
    afterwards. *)
Definition main (INDEX_FILE_PATH : string) (cwd : list string)
           (argv : list string) (target : option Node) (proc : Process)
  : nat * Process :=
  match argv with
  | _ :: directory_path :: _ =>
      let out := stdout proc ++ ["[INFO] Scanning..."] in
      match scan_directory (Some print_progress) cwd directory_path target
                           (mkScanner [] out) with
      | (Ok files_found, st) =>
          let proc := mkProcess (sink_state st ++ ["[INFO] Saving index to JSON..."])
                                (index_file proc) in
          let proc := save_index_to_json files_found INDEX_FILE_PATH proc in
          (0, mkProcess (stdout proc ++ ["[INFO] Scan completed successfully!"])
                        (index_file proc))
      | (Raise e, st) =>
          (1, mkProcess (sink_state st ++ [("[ERROR] " ++ exc_msg e)%string])
                        (index_file proc))
      end
  | _ => (1, mkProcess (stdout proc ++ ["Usage: python scan.py <directory_path>"])
                       (index_file proc))
  end.
End cli_scan.

(** ** Vocabulary of the statements *)

(** A record that the grouping loop does not skip. *)
Definition usable (file_info : FileInfo) : bool :=
  truthy (hash file_info) && truthy (path file_info).

(** The paths of the usable records of [records] that carry digest [h], in
    the order of the records and once per record. *)
Fixpoint paths_with (h : string) (records : list FileInfo) : list string :=
  match records with
  | [] => []
  | r :: records' =>
      match hash r, path r with
      | Some h', Some p =>
          if usable r && String.eqb h h' then p :: paths_with h records'
          else paths_with h records'
      | _, _ => paths_with h records'
      end
  end.

(** The non-empty digests of [records], one per record that carries one. *)
Fixpoint digests (records : list FileInfo) : list string :=
  match records with
  | [] => []
  | r :: records' =>
      match hash r with
      | Some h => if truthy (hash r) then h :: digests records' else digests records'
      | None => digests records'
      end
  end.

(** The [size] that the first record with digest [h] carries ([0] when it
    has none, as [file_info.get("size", 0)]). *)
Fixpoint first_size (h : string) (records : list FileInfo) : Z :=
  match records with
  | [] => 0%Z
  | r :: records' =>
      match hash r with
      | Some h' =>
          if String.eqb h h'
          then match size r with Some n => n | None => 0%Z end
          else first_size h records'
      | None => first_size h records'
      end
  end.

(** Sum, over the groups that [find_duplicates] returns, of one less than
    the member count times the representative size. *)
Definition wasted_by_groups (records : list FileInfo) : Z :=
  fold_right
    (fun (g : string * list string) acc =>
       if Nat.ltb 1 (List.length (snd g))
       then ((Z.of_nat (List.length (snd g)) - 1) * first_size (fst g) records + acc)%Z
       else acc)
    0%Z (hash_groups_of records).

(** [file_at path node q d]: the regular file [d] is found at path [q] in
    the tree [node] whose own path is [path]. *)
Inductive file_at : Path.t -> Node -> Path.t -> FileData -> Prop :=
| file_here path d : file_at path (NFile d) path d
| file_below path entries entry child q d :
    In (entry, child) entries ->
    file_at (Path.joinpath path entry) child q d ->
    file_at path (NDir (Some entries)) q d.

(** The read error of [d], if it has one, is at a call that the hashing
    loop makes: call number [k] happens when the [k - 1] chunks before it
    did not exhaust the file. *)
Definition read_fails (d : FileData) : bool :=
  match read_fault d with
  | Some k =>
      (N.of_nat k * CHUNK_SIZE <? N.of_nat (List.length (content d)) + CHUNK_SIZE)%N
  | None => false
  end.

(** An entry that the scan cannot use. *)
Inductive inaccessible : Node -> Prop :=
| unlistable_directory : inaccessible (NDir None)
| denied_entry : inaccessible NDenied
| stat_error d : st_size d = None -> inaccessible (NFile d)
| open_error d : open_ok d = false -> inaccessible (NFile d)
| read_error d : read_fails d = true -> inaccessible (NFile d).

(** A callback that keeps what it was called with: the number of files
    recorded at that moment and the message. *)
Definition logger : Sink (list (nat * string)) :=
  fun files message log => log ++ [(List.length files, message)].

Definition regular_file (c : string) : FileData :=
  mkFileData (Some (N.of_nat (String.length c))) true (list_byte_of_string c) None.

(** The records of the concrete scenario of the specification. *)
Definition scenario : list FileInfo :=
  [ mkFileInfo (Some "/a/1.txt") (Some 100%Z) None (Some "H1");
    mkFileInfo (Some "/b/2.txt") (Some 100%Z) None (Some "H1");
    mkFileInfo (Some "/c/3.txt") (Some 200%Z) None (Some "H2") ].

(** ** Vocabulary of the proofs *)

Definition size_or_0 (r : FileInfo) : Z :=
  match size r with Some n => n | None => 0%Z end.

(** How many records carry the non-empty digest [h]. *)
Definition occurrences (h : string) (records : list FileInfo) : nat :=
  count_occ string_dec (digests records) h.

(** What [hash_groups] holds after the records [seen]. *)
Definition groups_inv (d : PyDict.dict (list string)) (seen : list FileInfo) : Prop :=
  NoDup (PyDict.keys d) /\
  forall h, PyDict.get h d = match paths_with h seen with
                      | [] => None
                      | l => Some l
                      end.

(** What the dictionary of [calculate_wasted_space] holds after the
    records [seen]. *)
Definition sizes_inv (d : PyDict.dict GroupInfo) (seen : list FileInfo) : Prop :=
  NoDup (PyDict.keys d) /\
  forall h, PyDict.get h d = match occurrences h seen with
                      | O => None
                      | c => Some {| count := Z.of_nat c;
                                     gsize := first_size h seen |}
                      end.

(** The contribution of one digest to the wasted space. *)
Definition wasted_of (g : GroupInfo) : Z :=
  if (1 <? count g)%Z then ((count g - 1) * gsize g)%Z else 0%Z.

(** A record that has a path whenever it has a digest. *)
Definition digest_has_path (r : FileInfo) : Prop :=
  truthy (hash r) = true -> truthy (path r) = true.

(** The contribution of one group to [wasted_by_groups]. *)
Definition group_waste (records : list FileInfo) (g : string * list string) : Z :=
  if Nat.ltb 1 (List.length (snd g))
  then ((Z.of_nat (List.length (snd g)) - 1) * first_size (fst g) records)%Z
  else 0%Z.

(** A record can have a digest and an empty path: both keys are there, as
    the docstrings ask. *)
Definition pathless : list FileInfo :=
  [ mkFileInfo (Some "") (Some 10%Z) (Some "") (Some "H");
    mkFileInfo (Some "") (Some 10%Z) (Some "") (Some "H") ].

(** Whether a handle with [rest] left to read, [r] calls of [read] behind
    it and read error [flt] raises in a loop that reads [n] bytes at a
    time. *)
Definition fault_hit (n : N) (rest : list byte) (r : nat) (flt : option nat)
  : bool :=
  match flt with
  | Some k =>
      Nat.leb r k &&
      (N.of_nat (k - r) * n <? N.of_nat (List.length rest) + n)%N
  | None => false
  end.

Definition is_lower_hex (c : ascii) : bool :=
  existsb (Ascii.eqb c) (list_ascii_of_string "0123456789abcdef").

(** A string of 64 characters, each one of [0-9a-f]. *)
Definition lower_hex_64 (s : string) : Prop :=
  String.length s = 64 /\
  Forall (fun c => is_lower_hex c = true) (list_ascii_of_string s).

(** *** The scan as a function of the tree

    What a scan records and what it tells its callback, written as
    functions of the tree; lemma [scan_recursive_run] shows that
    [_scan_recursive] computes them. *)

(** The record of a regular file, when it gets one. *)
Definition collected (cwd : list string) (item : Path.t) (target : Node)
  : list FileInfo :=
  match _collect_file_info cwd item target with
  | Ok (Some file_info) => [file_info]
  | _ => []
  end.

Definition item_records (cwd : list string)
           (below : Path.t -> Node -> list FileInfo)
           (item : Path.t) (target : Node) : list FileInfo :=
  match target with
  | NDir _ => below item target
  | NFile _ => collected cwd item target
  | _ => []
  end.

Fixpoint records_of (cwd : list string) (path : Path.t) (target : Node)
         {struct target} : list FileInfo :=
  match target with
  | NDir (Some entries) =>
      flat_map (fun entry =>
                  item_records cwd (records_of cwd)
                               (Path.joinpath path (fst entry)) (snd entry))
               entries
  | _ => []
  end.

(** A call of the callback: the files recorded at that moment and the
    message. *)
Definition Event : Type := list FileInfo * string.

Definition item_events (cwd : list string)
           (below : Path.t -> Node -> list FileInfo -> list Event)
           (item : Path.t) (target : Node) (files : list FileInfo)
  : list Event :=
  match target with
  | NDir _ => below item target files
  | NDenied => [(files, "Skipped (no permission): " ++ Path.str item)%string]
  | NFile _ =>
      let files' := files ++ collected cwd item target in
      (files, "Scanning: " ++ Path.str item)%string ::
      (if Nat.eqb (Nat.modulo (List.length files') 100) 0
       then [(files', "Files found: " ++ decimal (List.length files'))%string]
       else [])
  | NOther => []
  end.

Fixpoint events_of (cwd : list string) (path : Path.t) (target : Node)
         (files : list FileInfo) {struct target} : list Event :=
  match target with
  | NDir (Some entries) =>
      (fix loop (entries : list (string * Node)) (files : list FileInfo)
         : list Event :=
         match entries with
         | [] => []
         | entry :: entries' =>
             let item := Path.joinpath path (fst entry) in
             item_events cwd (events_of cwd) item (snd entry) files
             ++ loop entries'
                     (files ++ item_records cwd (records_of cwd) item (snd entry))
         end) entries files
  | _ => [(files, "Skipped directory (no permission): " ++ Path.str path)%string]
  end.

(** The callback's state after the calls [events]. *)
Definition deliver (S : Type) (progress_callback : option (Sink S))
           (events : list Event) (s : S) : S :=
  match progress_callback with
  | Some callback => fold_left (fun s e => callback (fst e) (snd e) s) events s
  | None => s
  end.

(** The events of the entries of one directory, as in [events_of]. *)
Fixpoint entries_events (cwd : list string) (path : Path.t)
         (entries : list (string * Node)) (files : list FileInfo)
  : list Event :=
  match entries with
  | [] => []
  | entry :: entries' =>
      let item := Path.joinpath path (fst entry) in
      item_events cwd (events_of cwd) item (snd entry) files
      ++ entries_events cwd path entries'
           (files ++ item_records cwd (records_of cwd) item (snd entry))
  end.

(** Induction on trees: a directory inherits from its entries. *)
Section NodeInduction.
Variable P : Node -> Prop.
Hypothesis P_file : forall d, P (NFile d).
Hypothesis P_unlistable : P (NDir None).
Hypothesis P_dir :
  forall entries, Forall (fun entry => P (snd entry)) entries ->
                  P (NDir (Some entries)).
Hypothesis P_other : P NOther.
Hypothesis P_denied : P NDenied.

Fixpoint Node_tree_ind (target : Node) : P target :=
  match target with
  | NFile d => P_file d
  | NDir None => P_unlistable
  | NDir (Some entries) =>
      P_dir
        ((fix all (entries : list (string * Node))
            : Forall (fun entry => P (snd entry)) entries :=
            match entries with
            | [] => Forall_nil _
            | entry :: entries' =>
                Forall_cons entry (Node_tree_ind (snd entry)) (all entries')
            end) entries)
  | NOther => P_other
  | NDenied => P_denied
  end.
End NodeInduction.

(** The outcome of a computation that returns normally after recording
    [records] and calling the callback with [events]. *)
Definition ran (S : Type) (progress_callback : option (Sink S))
           (st : Scanner S) (records : list FileInfo) (events : list Event)
  : Result unit * Scanner S :=
  (Ok tt,
   mkScanner (scanned_files st ++ records)
             (deliver progress_callback events (sink_state st))).

(** The notification that names an entry the scan cannot use. *)
Definition notice (item : Path.t) (target : Node) : string :=
  match target with
  | NDir _ => "Skipped directory (no permission): " ++ Path.str item
  | NDenied => "Skipped (no permission): " ++ Path.str item
  | _ => "Scanning: " ++ Path.str item
  end.

(** The record of the regular file [d] found at [q], of size [n]. *)
Definition record_of (cwd : list string) (q : Path.t) (d : FileData) (n : N)
  : FileInfo :=
  {| path := Some (Path.str (Path.absolute cwd q));
     size := Some (Z.of_N n);
     name := Some (Path.name q);
     hash := Some (SHA256.hexdigest_of (content d)) |}.

(** A record of a scan of [root] at [root_path]: it is the record of a
    regular file of the tree whose [stat] succeeded and whose digest was
    computed; the digest is not empty, the size is not negative, the path is
    absolute and the name is the last component of the path. *)
Definition well_formed_record (cwd : list string) (root_path : Path.t)
           (root : Node) (r : FileInfo) : Prop :=
  exists q d n,
    file_at root_path root q d /\
    st_size d = Some n /\
    generate_file_hash (Some (NFile d)) = Ok (SHA256.hexdigest_of (content d)) /\
    r = record_of cwd q d n /\
    SHA256.hexdigest_of (content d) <> "" /\
    lower_hex_64 (SHA256.hexdigest_of (content d)) /\
    (0 <= Z.of_N n)%Z /\
    String.prefix "/" (Path.str (Path.absolute cwd q)) = true /\
    Path.name (Path.absolute cwd q) = Path.name q.

(** A directory with an unreadable subdirectory and a readable file. *)
Definition sample_tree : Node :=
  NDir (Some [ ("private", NDir None);
               ("notes.txt", NFile (regular_file "abc")) ]).

(** A directory whose only entry is a regular file that does not open. *)
Definition locked_file_tree : Node :=
  NDir (Some [ ("locked.bin", NFile (mkFileData (Some 3%N) false [] None)) ]).

(** *** Further vocabulary: the analyzer *)

(** The elements of [l] in the order of their first occurrence, each
    once. *)
Fixpoint first_seen (l : list string) : list string :=
  match l with
  | [] => []
  | x :: l' => x :: filter (fun y => negb (String.eqb x y)) (first_seen l')
  end.

(** What one digest contributes to the wasted space: one less than the
    number of records that carry it, times the size of the first of them. *)
Definition digest_waste (records : list FileInfo) (h : string) : Z :=
  if Nat.ltb 1 (occurrences h records)
  then ((Z.of_nat (occurrences h records) - 1) * first_size h records)%Z
  else 0%Z.

(** The keys of a dictionary with keys [ks] after an assignment to the
    key [h]. *)
Definition add_key (ks : list string) (h : string) : list string :=
  if existsb (String.eqb h) ks then ks else ks ++ [h].

(** *** Further code: the rest of [FileScanner] *)

(** [FileScanner.get_file_count] *)
Definition get_file_count (S : Type) (self : Scanner S) : nat :=
  List.length (scanned_files self).

(** The size of a record in bytes, [0] when the record has none. *)
Definition hashed_size (r : FileInfo) : Z :=
  if truthy (hash r) then size_or_0 r else 0%Z.

(** The message of a milestone. *)
Definition milestone (m : nat) : string := "Files found: " ++ decimal m.

(** A directory of [how_many] readable empty files named by their
    numbers. *)
Definition numbered_files (how_many : nat) : Node :=
  NDir (Some (map (fun i => (decimal i, NFile (regular_file "")))
                  (seq 0 how_many))).

(** Two copies of one content, one of them in a subdirectory. *)
Definition twin_tree : Node :=
  NDir (Some [ ("backup", NDir (Some [ ("notes.txt", NFile (regular_file "abc")) ]));
               ("notes.txt", NFile (regular_file "abc")) ]).

(** While [target] is scanned, every multiple of 100 that the number of
    recorded files reaches is reported. *)
Definition reports_milestones (cwd : list string) (target : Node) : Prop :=
  forall path files m,
    List.length files < m ->
    m <= List.length files + List.length (records_of cwd path target) ->
    Nat.modulo m 100 = 0 ->
    exists fs, List.length fs = m /\
               In (fs, milestone m) (events_of cwd path target files).

(** *** Further code: ui/app.py

    The server keeps the global [scan_status], and the index file lies on
    its disk.  [perform_scan] is the body of the background thread;
    [start_scan] is modelled up to the point where it starts the thread and
    returns, next to its reply, the directory it starts the thread with.
    The request is taken to carry a JSON object whose [directory], if
    present, is a string; [exc_msg] stands for [str(e)]. *)

Module ui_app.
Record ScanStatus := mkStatus {
  is_scanning : bool;
  progress_message : string;
  files_found : nat
}.

(** [file_index.json] as the server finds it: not there, there but not
    loadable (reading or decoding raises), or a JSON object whose keys
    [total_files] and [files] may be missing. *)
Inductive IndexFile :=
| Absent
| Unloadable (why : string)
| Stored (total_files : option nat) (files : option (list FileInfo)).

(** What happens when the index file is written: the data directory or
    the file cannot be created or opened; the file opens, which empties it,
    and a later write raises; or every write succeeds. *)
Inductive Disk := CannotOpen | FailsWhileWriting | Writable.

Record Server := mkServer {
  scan_status : ScanStatus;
  index_file : IndexFile;
  disk : Disk
}.

(** Well-formed UTF-8 (RFC 3629).  The bytes of a file name that are not
    reach Python as lone surrogates, which [json.dump] with
    [ensure_ascii=False] cannot write to a file opened with
    [encoding='utf-8']: the write raises [UnicodeEncodeError], a
    [ValueError]. *)
Definition between (lo hi b : N) : bool := ((lo <=? b) && (b <=? hi))%N.

Definition continuation (b : N) : bool := between 0x80 0xBF b.

Fixpoint well_formed_utf8 (bs : list N) : bool :=
  match bs with
  | [] => true
  | b0 :: r0 =>
      if (b0 <? 0x80)%N then well_formed_utf8 r0
      else
        match r0 with
        | [] => false
        | b1 :: r1 =>
            if between 0xC2 0xDF b0
            then continuation b1 && well_formed_utf8 r1
            else
              match r1 with
              | [] => false
              | b2 :: r2 =>
                  if between 0xE0 0xEF b0
                  then (if (b0 =? 0xE0)%N then between 0xA0 0xBF b1
                        else if (b0 =? 0xED)%N then between 0x80 0x9F b1
                        else continuation b1)
                       && continuation b2 && well_formed_utf8 r2
                  else
                    match r2 with
                    | [] => false
                    | b3 :: r3 =>
                        if between 0xF0 0xF4 b0
                        then (if (b0 =? 0xF0)%N then between 0x90 0xBF b1
                              else if (b0 =? 0xF4)%N then between 0x80 0x8F b1
                              else continuation b1)
                             && continuation b2 && continuation b3
                             && well_formed_utf8 r3
                        else false
                    end
              end
        end
  end.

Definition encodable (s : option string) : bool :=
  match s with
  | Some s => well_formed_utf8 (map N_of_ascii (list_ascii_of_string s))
  | None => true
  end.

(** A record that [json.dump] can write. *)
Definition json_encodable (r : FileInfo) : bool :=
  encodable (path r) && encodable (name r) && encodable (hash r).

Record Reply := mkReply { code : nat; success : bool; message : string }.

Inductive FilesReply :=
| Listing (code : nat) (total_files : nat) (files : list FileInfo)
| Failure (code : nat) (message : string).

Definition os_path_exists (target : option Node) : bool :=
  match target with
  | None | Some NDenied => false
  | Some _ => true
  end.

Definition os_path_isdir (target : option Node) : bool :=
  match target with
  | Some (NDir _) => true
  | _ => false
  end.

Definition start_scan (directory : option string) (target : option Node)
           (srv : Server) : Reply * option string :=
  if is_scanning (scan_status srv)
  then (mkReply 400 false "Scan already in progress", None)
  else
    let directory := match directory with Some d => d | None => "" end in
    if String.eqb directory ""
    then (mkReply 400 false "No directory provided", None)
    else if negb (os_path_exists target)
    then (mkReply 400 false ("Directory does not exist: " ++ directory), None)
    else if negb (os_path_isdir target)
    then (mkReply 400 false ("Path is not a directory: " ++ directory), None)
    else (mkReply 200 true "Scan started", Some directory).

Definition get_scan_status (srv : Server) : ScanStatus := scan_status srv.

Definition get_files (srv : Server) : FilesReply :=
  match index_file srv with
  | Absent => Listing 200 0 []
  | Stored total_files files =>
      Listing 200
              (match total_files with Some n => n | None => 0 end)
              (match files with Some l => l | None => [] end)
  | Unloadable why => Failure 500 ("Error reading index file: " ++ why)
  end.

(** [open(..., 'w')] empties the index file before anything is written, and
    the [with] block closes it when a write raises, so an interrupted dump
    leaves a proper prefix of a JSON object, which does not load.
    [decode_error files_data] is what [json.load] says of the file that an
    interrupted dump of [files_data] leaves behind.  Of the messages of the
    exceptions only the beginning is kept: Python's goes on to name the
    character and its position. *)
Definition save_index_to_json (decode_error : list FileInfo -> string)
           (files_data : list FileInfo) (srv : Server)
  : Result unit * Server :=
  let interrupted :=
    mkServer (scan_status srv) (Unloadable (decode_error files_data)) (disk srv) in
  match disk srv with
  | CannotOpen => (Raise permission_denied, srv)
  | FailsWhileWriting => (Raise io_error, interrupted)
  | Writable =>
      if forallb json_encodable files_data
      then (Ok tt,
            mkServer (scan_status srv)
                     (Stored (Some (List.length files_data)) (Some files_data))
                     (disk srv))
      else (Raise (mkExc ValueError "'utf-8' codec can't encode character"),
            interrupted)
  end.

(** The callback that [perform_scan] hands to the scanner. *)
Definition progress_callback : Sink ScanStatus :=
  fun scanned message status =>
    mkStatus (is_scanning status) message (List.length scanned).

Definition set_message (message : string) (srv : Server) : Server :=
  mkServer (mkStatus (is_scanning (scan_status srv)) message
                     (files_found (scan_status srv)))
           (index_file srv) (disk srv).

Definition perform_scan (decode_error : list FileInfo -> string)
           (cwd : list string) (directory : string)
           (target : option Node) (srv : Server) : Server :=
  let tried : Result unit * Server :=
    let status := mkStatus true "Starting scan..." 0 in
    match scan_directory (Some progress_callback) cwd directory target
                         (mkScanner [] status) with
    | (Raise e, st) =>
        (Raise e, mkServer (sink_state st) (index_file srv) (disk srv))
    | (Ok scanned, st) =>
        let srv := mkServer (sink_state st) (index_file srv) (disk srv) in
        let srv := set_message "Saving index..." srv in
        match save_index_to_json decode_error scanned srv with
        | (Raise e, srv) => (Raise e, srv)
        | (Ok _, srv) =>
            let srv :=
              set_message ("Scan complete! Found "
                             ++ decimal (List.length scanned) ++ " files.") srv in
            (Ok tt,
             mkServer (mkStatus (is_scanning (scan_status srv))
                                (progress_message (scan_status srv))
                                (List.length scanned))
                      (index_file srv) (disk srv))
        end
    end in
  let srv :=
    match tried with
    | (Raise e, srv) => set_message ("Error: " ++ exc_msg e) srv
    | (Ok _, srv) => srv
    end in
  mkServer (mkStatus false (progress_message (scan_status srv))
                     (files_found (scan_status srv)))
           (index_file srv) (disk srv).
End ui_app.

(** *** Callbacks that may raise

    The scanner calls [progress_callback] inside its [try] blocks, so an
    exception that the callback raises takes the paths of the scanner's own
    handlers.  [General] is the scanner with a callback that returns or
    raises after changing its state; a [Sink] above is a callback that
    always returns. *)

Module General.
Section Scanner.
Variable S : Type.

Definition Callback := list FileInfo -> string -> S -> Result unit * S.

Variable progress_callback : option Callback.

Notation "x <- m ;; k" := (bind m (fun x => k))
  (at level 61, m at next level, right associativity).
Notation "m ;; k" := (bind m (fun _ => k))
  (at level 61, right associativity).

(** [if progress_callback: progress_callback(message)] *)
Definition report (message : string) : M S unit :=
  fun st =>
    match progress_callback with
    | Some callback =>
        let (outcome, s) :=
          callback (scanned_files st) message (sink_state st) in
        (outcome, mkScanner (scanned_files st) s)
    | None => (Ok tt, st)
    end.

Definition has_callback : bool :=
  match progress_callback with Some _ => true | None => false end.

Variable cwd : list string.

Definition scan_item (self : Path.t -> Node -> M S unit)
           (item : Path.t) (target : Node) : M S unit :=
  try_except_os
    (item_is_dir <- lift (Path.is_dir (Some target)) ;;
     if item_is_dir : bool then self item target
     else
       item_is_file <- lift (Path.is_file (Some target)) ;;
       if item_is_file : bool then
         report ("Scanning: " ++ Path.str item) ;;
         file_info <- lift (_collect_file_info cwd item target) ;;
         match file_info with
         | Some file_info => append_scanned file_info
         | None => ret tt
         end ;;
         files <- get_scanned_files (S := S) ;;
         if has_callback && Nat.eqb (Nat.modulo (List.length files) 100) 0
         then report ("Files found: " ++ decimal (List.length files))
         else ret tt
       else ret tt)
    (report ("Skipped (no permission): " ++ Path.str item)).

Fixpoint _scan_recursive (path : Path.t) (target : Node) {struct target}
  : M S unit :=
  try_except_os
    match target with
    | NDir (Some entries) =>
        for_each entries
          (fun entry =>
             scan_item _scan_recursive
                       (Path.joinpath path (fst entry)) (snd entry))
    | unlistable => raise (Path.iterdir_error unlistable)
    end
    (report ("Skipped directory (no permission): " ++ Path.str path)).

Definition scan_directory (directory_path : string) (target : option Node)
  : M S (list FileInfo) :=
  set_scanned_files [] ;;
  let path := Path.of_string directory_path in
  path_exists <- lift (Path.exists_ target) ;;
  if negb path_exists then
    raise (mkExc ValueError ("Directory does not exist: " ++ directory_path))
  else
    path_is_dir <- lift (Path.is_dir target) ;;
    if negb path_is_dir then
      raise (mkExc ValueError ("Path is not a directory: " ++ directory_path))
    else
      report "Starting scan..." ;;
      match target with
      | Some root => _scan_recursive path root
      | None => ret tt
      end ;;
      files <- get_scanned_files (S := S) ;;
      report ("Scan complete! Found " ++ decimal (List.length files) ++ " files.") ;;
      get_scanned_files (S := S).
End Scanner.
End General.

(** A callback that never raises, whatever it is called with. *)
Definition returns_normally (S : Type) (callback : General.Callback S) : Prop :=
  forall files message s, fst (callback files message s) = Ok tt.

(** No callback, or one that never raises. *)
Definition well_behaved (S : Type)
           (progress_callback : option (General.Callback S)) : Prop :=
  match progress_callback with
  | Some callback => returns_normally callback
  | None => True
  end.

(** What a callback does to its state. *)
Definition calm (S : Type) (callback : General.Callback S) : Sink S :=
  fun files message s => snd (callback files message s).

Definition calmed (S : Type) (progress_callback : option (General.Callback S))
  : option (Sink S) :=
  match progress_callback with
  | Some callback => Some (calm callback)
  | None => None
  end.

(** A [Sink] as a callback, which returns. *)
Definition polite (S : Type) (sink : Sink S) : General.Callback S :=
  fun files message s => (Ok tt, sink files message s).

(** A callback that raises [OSError] when told that a file is being
    scanned, and one that raises [ValueError], which is not an [OSError],
    on every call. *)
Definition faints_at_files : General.Callback unit :=
  fun _ message s =>
    if String.prefix "Scanning" message then (Raise io_error, s) else (Ok tt, s).

Definition always_fails : General.Callback unit :=
  fun _ _ s => (Raise (mkExc ValueError "callback failed"), s).

(** The entries of a log that announce a skip. *)
Definition skip_notices (log : list (nat * string)) : list (nat * string) :=
  filter (fun e => String.prefix "Skipped" (snd e)) log.

(** A directory whose only entry is a regular file on which [stat]
    raises. *)
Definition broken_file_tree : Node :=
  NDir (Some [ ("broken.bin",
                NFile (mkFileData None true (list_byte_of_string "abc") None)) ]).

(** A directory with one readable file whose name is the single byte 0xE9,
    which is not UTF-8. *)
Definition latin1_name_tree : Node :=
  NDir (Some [ (String (ascii_of_N 233) ".txt", NFile (regular_file "abc")) ]).

(** What [perform_scan] leaves after a scan of a directory that returned
    [scanned]. *)
Definition after_scan (decode_error : list FileInfo -> string)
           (scanned : list FileInfo) (srv : ui_app.Server) : ui_app.Server :=
  let failed (e : Exception) (index : ui_app.IndexFile) :=
    ui_app.mkServer
      (ui_app.mkStatus false ("Error: " ++ exc_msg e) (List.length scanned))
      index (ui_app.disk srv) in
  match ui_app.disk srv with
  | ui_app.CannotOpen => failed permission_denied (ui_app.index_file srv)
  | ui_app.FailsWhileWriting =>
      failed io_error (ui_app.Unloadable (decode_error scanned))
  | ui_app.Writable =>
      if forallb ui_app.json_encodable scanned
      then ui_app.mkServer
             (ui_app.mkStatus false
                ("Scan complete! Found " ++ decimal (List.length scanned) ++ " files.")
                (List.length scanned))
             (ui_app.Stored (Some (List.length scanned)) (Some scanned))
             (ui_app.disk srv)
      else failed (mkExc ValueError "'utf-8' codec can't encode character")
                  (ui_app.Unloadable (decode_error scanned))
  end.

(** A callback that raises [OSError] when told of a skip. *)
Definition faints_at_skips : General.Callback unit :=
  fun _ message s =>
    if String.prefix "Skipped" message then (Raise io_error, s) else (Ok tt, s).

(** * Properties *)

(** ** Dictionaries *)

Module PyDictFacts.
Import PyDict.
Section Facts.
Variable V : Type.
Implicit Types (d : dict V) (k : string) (v : V).

Lemma get_set_same k v d : get k (set k v d) = Some v.
Proof.
  induction d as [|[k' v'] d IH]; simpl.
  - now rewrite String.eqb_refl.
  - destruct (String.eqb k k') eqn:E; simpl; rewrite ?String.eqb_refl, ?E; auto.
Qed.

Lemma get_set_other k k' v d : k <> k' -> get k' (set k v d) = get k' d.
Proof.
  intros Hne. induction d as [|[k0 v0] d IH]; simpl.
  - destruct (String.eqb k' k) eqn:E; auto.
    apply String.eqb_eq in E. congruence.
  - destruct (String.eqb k k0) eqn:E; simpl.
    + apply String.eqb_eq in E; subst k0.
      destruct (String.eqb k' k) eqn:E'; auto.
      apply String.eqb_eq in E'. congruence.
    + now rewrite IH.
Qed.

Lemma set_set k v v' d : set k v' (set k v d) = set k v' d.
Proof.
  induction d as [|[k0 v0] d IH]; simpl.
  - now rewrite String.eqb_refl.
  - destruct (String.eqb k k0) eqn:E; simpl; rewrite ?String.eqb_refl, ?E; congruence.
Qed.

Lemma get_None_keys k d : get k d = None <-> ~ In k (keys d).
Proof.
  induction d as [|[k0 v0] d IH]; simpl.
  - tauto.
  - destruct (String.eqb k k0) eqn:E.
    + apply String.eqb_eq in E. split; [discriminate | intros H; elim H; auto].
    + apply String.eqb_neq in E. rewrite IH. split.
      * intros H [H'|H']; [congruence | auto].
      * intros H H'. apply H. now right.
Qed.

(** A new key goes to the end, an old one keeps its place. *)
Lemma keys_set k v d :
  keys (set k v d) = if contains k d then keys d else keys d ++ [k].
Proof.
  unfold contains. induction d as [|[k0 v0] d IH]; simpl; auto.
  destruct (String.eqb k k0) eqn:E; simpl.
  - apply String.eqb_eq in E. now subst.
  - rewrite IH. now destruct (get k d).
Qed.

Lemma NoDup_keys_set k v d : NoDup (keys d) -> NoDup (keys (set k v d)).
Proof.
  intros Hnd. rewrite keys_set. unfold contains.
  destruct (get k d) eqn:E; auto.
  apply get_None_keys in E.
  apply NoDup_rev in Hnd. rewrite <- (rev_involutive (keys d ++ [k])).
  apply NoDup_rev. rewrite rev_app_distr. simpl. constructor; auto.
  now rewrite <- in_rev.
Qed.

Lemma get_Some_In k v d : get k d = Some v -> In (k, v) d.
Proof.
  induction d as [|[k0 v0] d IH]; simpl; [discriminate|].
  destruct (String.eqb k k0) eqn:E.
  - apply String.eqb_eq in E. intros [= ->]. subst. now left.
  - intros H. right. auto.
Qed.

Lemma In_get k v d : NoDup (keys d) -> In (k, v) d -> get k d = Some v.
Proof.
  induction d as [|[k0 v0] d IH]; simpl; [tauto|].
  intros Hnd [H|H].
  - injection H as -> ->. now rewrite String.eqb_refl.
  - inversion Hnd as [|? ? Hnotin Hnd']; subst.
    destruct (String.eqb k k0) eqn:E.
    + apply String.eqb_eq in E; subst k0. elim Hnotin.
      change k with (fst (k, v)). now apply in_map.
    + auto.
Qed.
End Facts.
End PyDictFacts.

(** ** The grouping loop of [find_duplicates] *)

Section Grouping.
Import PyDict PyDictFacts.

Lemma truthy_Some s : truthy (Some s) = true <-> s <> "".
Proof.
  simpl. destruct (String.eqb s "") eqn:E; simpl.
  - apply String.eqb_eq in E. split; [discriminate | congruence].
  - apply String.eqb_neq in E. tauto.
Qed.

Lemma group_file_skip d r : usable r = false -> group_file d r = d.
Proof.
  unfold usable, group_file. intros H.
  destruct (truthy (hash r)), (truthy (path r)); simpl in *; congruence.
Qed.

Lemma group_file_usable d r h p :
  hash r = Some h -> path r = Some p -> usable r = true ->
  group_file d r
  = set h (match get h d with Some v => v | None => [] end ++ [p]) d.
Proof.
  unfold usable, group_file. intros Hh Hp Hu. rewrite Hh, Hp in *.
  apply andb_true_iff in Hu as [-> ->]. simpl.
  unfold contains, getitem. destruct (get h d) eqn:E; simpl.
  - now rewrite E.
  - now rewrite get_set_same, set_set.
Qed.

Lemma usable_fields r :
  usable r = true ->
  exists h p, hash r = Some h /\ path r = Some p /\ h <> "" /\ p <> "".
Proof.
  unfold usable. intros H. apply andb_true_iff in H as [Hh Hp].
  destruct (hash r) as [h|]; [|discriminate].
  destruct (path r) as [p|]; [|discriminate].
  exists h, p. repeat split; now apply truthy_Some.
Qed.

Lemma paths_with_app h l1 l2 :
  paths_with h (l1 ++ l2) = paths_with h l1 ++ paths_with h l2.
Proof.
  induction l1 as [|r l1 IH]; simpl; auto.
  destruct (hash r), (path r); auto.
  destruct (usable r && String.eqb h s); simpl; now rewrite IH.
Qed.

Lemma paths_with_skip h r : usable r = false -> paths_with h [r] = [].
Proof.
  intros H. simpl. rewrite H. now destruct (hash r), (path r).
Qed.

Lemma paths_with_usable h r h' p :
  hash r = Some h' -> path r = Some p -> usable r = true ->
  paths_with h [r] = if String.eqb h h' then [p] else [].
Proof. intros Hh Hp Hu. simpl. now rewrite Hh, Hp, Hu. Qed.

(** Every member of [paths_with h records] is the path of a record that
    is not skipped and carries [h]. *)
Lemma paths_with_In h p records :
  In p (paths_with h records) ->
  exists r, In r records /\ hash r = Some h /\ path r = Some p
            /\ usable r = true /\ h <> "" /\ p <> "".
Proof.
  induction records as [|r records IH]; simpl; [tauto|].
  assert (Hrec : In p (paths_with h records) ->
                 exists r0, (r = r0 \/ In r0 records) /\ hash r0 = Some h
                            /\ path r0 = Some p /\ usable r0 = true
                            /\ h <> "" /\ p <> "").
  { intros H. destruct (IH H) as (r0 & ? & ?). exists r0. tauto. }
  destruct (hash r) as [h'|] eqn:Hh; auto.
  destruct (path r) as [p'|] eqn:Hp; auto.
  destruct (usable r) eqn:Hu; simpl; auto.
  destruct (String.eqb h h') eqn:E; auto.
  apply String.eqb_eq in E; subst h'. intros [->|H]; auto.
  destruct (usable_fields _ Hu) as (h0 & p0 & Hh0 & Hp0 & ? & ?).
  exists r. rewrite Hh in Hh0. rewrite Hp in Hp0.
  injection Hh0 as <-. injection Hp0 as <-. tauto.
Qed.

Lemma groups_inv_step d seen r :
  groups_inv d seen -> groups_inv (group_file d r) (seen ++ [r]).
Proof.
  intros [Hnd Hget]. destruct (usable r) eqn:Hu.
  - destruct (usable_fields _ Hu) as (h0 & p0 & Hh & Hp & _ & _).
    rewrite (group_file_usable d _ Hh Hp Hu). split.
    + now apply NoDup_keys_set.
    + intros h. rewrite paths_with_app, (paths_with_usable h _ Hh Hp Hu).
      destruct (String.eqb h h0) eqn:E.
      * apply String.eqb_eq in E; subst h0.
        rewrite get_set_same, Hget.
        destruct (paths_with h seen); reflexivity.
      * apply String.eqb_neq in E.
        rewrite get_set_other by congruence.
        now rewrite app_nil_r.
  - rewrite group_file_skip by assumption. split; auto.
    intros h. now rewrite paths_with_app, paths_with_skip, app_nil_r.
Qed.

Lemma groups_inv_fold records :
  forall d seen, groups_inv d seen ->
                 groups_inv (fold_left group_file records d) (seen ++ records).
Proof.
  induction records as [|r records IH]; intros d seen H; simpl.
  - now rewrite app_nil_r.
  - replace (seen ++ r :: records) with ((seen ++ [r]) ++ records)
      by now rewrite <- app_assoc.
    apply IH. now apply groups_inv_step.
Qed.

Lemma hash_groups_inv records : groups_inv (hash_groups_of records) records.
Proof.
  apply (groups_inv_fold records (d := empty _) (seen := [])).
  split; [constructor | reflexivity].
Qed.

(** The groups, with the digest each one belongs to. *)
Lemma In_hash_groups h g records :
  In (h, g) (hash_groups_of records) <->
  g = paths_with h records /\ g <> [].
Proof.
  destruct (hash_groups_inv records) as [Hnd Hget]. split.
  - intros H. apply (In_get _ _ _ Hnd) in H. rewrite Hget in H.
    destruct (paths_with h records); [discriminate|].
    injection H as <-. split; [reflexivity | discriminate].
  - intros [-> Hne]. apply get_Some_In. rewrite Hget.
    destruct (paths_with h records); congruence.
Qed.

Lemma In_find_duplicates g records :
  In g (find_duplicates records) <->
  exists h, g = paths_with h records /\ 2 <= List.length g.
Proof.
  unfold find_duplicates, values. rewrite filter_In, in_map_iff. split.
  - intros [[[h g'] [Hg Hin]] Hlen]. simpl in Hg. subst g'.
    apply In_hash_groups in Hin as [-> _]. exists h. split; auto.
    now apply Nat.ltb_lt in Hlen.
  - intros [h [-> Hlen]]. split.
    + exists (h, paths_with h records). split; auto.
      apply In_hash_groups. split; auto.
      destruct (paths_with h records); simpl in *; [lia | discriminate].
    + now apply Nat.ltb_lt.
Qed.

Lemma fold_group_file_filter records :
  forall d, fold_left group_file (filter usable records) d
            = fold_left group_file records d.
Proof.
  induction records as [|r records IH]; intros d; simpl; auto.
  destruct (usable r) eqn:Hu; simpl.
  - apply IH.
  - rewrite (group_file_skip d r Hu). apply IH.
Qed.
End Grouping.

(** C1.  Every group that [find_duplicates] returns has at least two
    members and belongs to one non-empty digest [h]: it is the list of the
    paths of the records that carry [h] and are not skipped, so each of its
    members is the non-empty path of an input record whose digest is [h].
    Records whose digest or path is missing or empty do not take part: the
    result is that of the input without them. *)
Theorem find_duplicates_groups (records : list FileInfo) :
  (forall g, In g (find_duplicates records) ->
     2 <= List.length g /\
     exists h, h <> "" /\
       g = paths_with h records /\
       forall p, In p g ->
         p <> "" /\
         exists r, In r records /\ hash r = Some h /\ path r = Some p
                   /\ usable r = true) /\
  find_duplicates (filter usable records) = find_duplicates records.
Proof.
  split.
  - intros g Hg. apply In_find_duplicates in Hg as [h [Hg Hlen]].
    split; [assumption|]. exists h.
    assert (Hmem : forall p, In p g ->
              exists r, In r records /\ hash r = Some h /\ path r = Some p
                        /\ usable r = true /\ h <> "" /\ p <> "").
    { intros p Hp. subst g. now apply paths_with_In. }
    repeat split.
    + destruct g as [|p g]; [simpl in Hlen; lia|].
      destruct (Hmem p (or_introl eq_refl)) as (r & ?). tauto.
    + assumption.
    + destruct (Hmem p H) as (r & ?). tauto.
    + destruct (Hmem p H) as (r & ?). exists r. tauto.
  - unfold find_duplicates, hash_groups_of.
    now rewrite fold_group_file_filter.
Qed.

Lemma find_duplicates_groups_witness :
  2 <= List.length ["/a/1.txt"; "/b/2.txt"] /\
  exists h, h <> "" /\
    ["/a/1.txt"; "/b/2.txt"] = paths_with h scenario /\
    forall p, In p ["/a/1.txt"; "/b/2.txt"] ->
      p <> "" /\
      exists r, In r scenario /\ hash r = Some h /\ path r = Some p
                /\ usable r = true.
Proof.
  apply (proj1 (find_duplicates_groups scenario)).
  simpl. left. reflexivity.
Defined.

(** ** Counting *)

Lemma fold_left_add_length (A : Type) (gs : list (list A)) :
  forall acc,
    fold_left (fun acc g => acc + List.length g) gs acc
    = acc + list_sum (map (@List.length A) gs).
Proof.
  induction gs as [|g gs IH]; intros acc; simpl.
  - lia.
  - rewrite IH. lia.
Qed.

(** C7.  [count_duplicates] reports the number of groups of
    [find_duplicates] and the sum of their member counts, every member
    counted, the copy that would be kept included; on the three records of
    the scenario the groups are [[["/a/1.txt"; "/b/2.txt"]]], the counts are
    1 group and 2 files, and the wasted space is 100. *)
Theorem count_duplicates_counts :
  (forall records,
     groups (count_duplicates records) = List.length (find_duplicates records) /\
     files (count_duplicates records)
     = list_sum (map (@List.length string) (find_duplicates records))) /\
  find_duplicates scenario = [["/a/1.txt"; "/b/2.txt"]] /\
  count_duplicates scenario = {| groups := 1; files := 2 |} /\
  calculate_wasted_space scenario = 100%Z.
Proof.
  split; [|repeat split].
  intros records. unfold count_duplicates. simpl. split; [reflexivity|].
  now rewrite fold_left_add_length.
Qed.

(** ** Multiplicity *)

Lemma count_occ_paths_with_one h p r :
  hash r = Some h -> path r = Some p -> h <> "" -> p <> "" ->
  count_occ string_dec (paths_with h [r]) p = 1.
Proof.
  intros Hh Hp Hne Hpe.
  assert (Hu : usable r = true).
  { unfold usable. rewrite Hh, Hp. apply andb_true_iff.
    split; now apply truthy_Some. }
  rewrite (paths_with_usable h r Hh Hp Hu), String.eqb_refl. simpl.
  now destruct (string_dec p p).
Qed.

(** C10.  A group has one entry per record, not per distinct path: when two
    records of the input carry the same non-empty path [p] and the same
    non-empty digest [h], the group of [h] is returned and holds [p] at
    least twice, so it has a repeated member. *)
Theorem find_duplicates_multiplicity
        (before between after : list FileInfo) (r1 r2 : FileInfo) (h p : string) :
  hash r1 = Some h -> path r1 = Some p ->
  hash r2 = Some h -> path r2 = Some p ->
  h <> "" -> p <> "" ->
  let records := before ++ r1 :: between ++ r2 :: after in
  In (paths_with h records) (find_duplicates records) /\
  2 <= count_occ string_dec (paths_with h records) p /\
  ~ NoDup (paths_with h records).
Proof.
  intros Hh1 Hp1 Hh2 Hp2 Hh Hp records.
  assert (Hocc : 2 <= count_occ string_dec (paths_with h records) p).
  { unfold records.
    change (r1 :: between ++ r2 :: after)
      with ([r1] ++ between ++ [r2] ++ after).
    rewrite !paths_with_app, !count_occ_app.
    rewrite (count_occ_paths_with_one r1 Hh1 Hp1 Hh Hp).
    rewrite (count_occ_paths_with_one r2 Hh2 Hp2 Hh Hp). lia. }
  repeat split.
  - apply In_find_duplicates. exists h. split; [reflexivity|].
    pose proof (count_occ_bound string_dec p (paths_with h records)). lia.
  - exact Hocc.
  - intros Hnd. rewrite (NoDup_count_occ string_dec) in Hnd.
    specialize (Hnd p). lia.
Qed.

Lemma find_duplicates_multiplicity_witness :
  let records := [] ++ mkFileInfo (Some "/a/1.txt") (Some 100%Z) None (Some "H1")
                    :: [] ++ mkFileInfo (Some "/a/1.txt") (Some 100%Z) None (Some "H1")
                    :: [] in
  In (paths_with "H1" records) (find_duplicates records) /\
  2 <= count_occ string_dec (paths_with "H1" records) "/a/1.txt" /\
  ~ NoDup (paths_with "H1" records).
Proof.
  apply (@find_duplicates_multiplicity [] [] [] _ _ "H1" "/a/1.txt");
    (reflexivity || discriminate).
Defined.

(** The same on a concrete input: the path is listed twice. *)
Example find_duplicates_same_path_twice :
  find_duplicates
    [ mkFileInfo (Some "/a/1.txt") (Some 100%Z) None (Some "H1");
      mkFileInfo (Some "/a/1.txt") (Some 100%Z) None (Some "H1") ]
  = [["/a/1.txt"; "/a/1.txt"]].
Proof. reflexivity. Qed.

(** ** The counting loop of [calculate_wasted_space] *)

Section Wasted.
Import PyDict PyDictFacts.

Lemma count_file_skip d r : truthy (hash r) = false -> count_file d r = d.
Proof. unfold count_file. now intros ->. Qed.

Lemma count_file_hashed d r h :
  hash r = Some h -> truthy (hash r) = true ->
  count_file d r
  = set h match get h d with
          | Some g => {| count := count g + 1; gsize := gsize g |}
          | None => {| count := 1; gsize := size_or_0 r |}
          end d.
Proof.
  unfold count_file. intros Hh Ht. rewrite Ht, Hh. simpl.
  unfold contains, getitem. destruct (get h d) eqn:E; simpl.
  - now rewrite E.
  - now rewrite get_set_same, set_set.
Qed.

Lemma digests_app l1 l2 : digests (l1 ++ l2) = digests l1 ++ digests l2.
Proof.
  induction l1 as [|r l1 IH]; simpl; auto.
  destruct (hash r); auto. destruct (truthy (Some s)); simpl; now rewrite IH.
Qed.

Lemma occurrences_app h l1 l2 :
  occurrences h (l1 ++ l2) = occurrences h l1 + occurrences h l2.
Proof. unfold occurrences. now rewrite digests_app, count_occ_app. Qed.

Lemma occurrences_one h r :
  occurrences h [r]
  = match hash r with
    | Some h' => if truthy (hash r) && String.eqb h h' then 1 else 0
    | None => 0
    end.
Proof.
  unfold occurrences. simpl. destruct (hash r) as [h'|] eqn:Hh; auto.
  destruct (truthy (Some h')); simpl; auto.
  destruct (string_dec h' h) as [->|Hne].
  - now rewrite String.eqb_refl.
  - destruct (String.eqb h h') eqn:E; auto.
    apply String.eqb_eq in E. congruence.
Qed.

Lemma occurrences_empty_digest records : occurrences "" records = 0.
Proof.
  unfold occurrences. induction records as [|r records IH]; simpl; auto.
  destruct (hash r) as [h|] eqn:Hh; auto.
  destruct (truthy (Some h)) eqn:Ht; auto. simpl.
  destruct (string_dec h "") as [->|]; auto. discriminate.
Qed.

Lemma first_size_seen h l1 l2 :
  0 < occurrences h l1 -> first_size h (l1 ++ l2) = first_size h l1.
Proof.
  induction l1 as [|r l1 IH]; simpl.
  - unfold occurrences. simpl. lia.
  - change (r :: l1) with ([r] ++ l1). rewrite occurrences_app, occurrences_one.
    destruct (hash r) as [h'|]; simpl; auto.
    destruct (String.eqb h h'); auto.
    rewrite andb_false_r. auto.
Qed.

Lemma first_size_unseen h l1 l2 :
  h <> "" -> occurrences h l1 = 0 -> first_size h (l1 ++ l2) = first_size h l2.
Proof.
  intros Hne. induction l1 as [|r l1 IH]; simpl; auto.
  change (r :: l1) with ([r] ++ l1). rewrite occurrences_app, occurrences_one.
  destruct (hash r) as [h'|]; simpl; [|intros; apply IH; lia].
  destruct (String.eqb h h') eqn:E.
  - apply String.eqb_eq in E; subst h'.
    apply String.eqb_neq in Hne. rewrite Hne. simpl. lia.
  - rewrite andb_false_r. intros. apply IH. lia.
Qed.

Lemma sizes_inv_step d seen r :
  sizes_inv d seen -> sizes_inv (count_file d r) (seen ++ [r]).
Proof.
  intros [Hnd Hget]. destruct (truthy (hash r)) eqn:Ht.
  - destruct (hash r) as [h0|] eqn:Hh; [|discriminate].
    assert (Hne : h0 <> "") by now apply truthy_Some.
    rewrite (count_file_hashed d r Hh) by now rewrite Hh. split.
    + now apply NoDup_keys_set.
    + intros h. rewrite occurrences_app, occurrences_one, Hh, Ht. simpl.
      destruct (String.eqb h h0) eqn:E.
      * apply String.eqb_eq in E; subst h0.
        rewrite get_set_same, Hget.
        destruct (occurrences h seen) eqn:Hocc.
        -- simpl. rewrite (@first_size_unseen h seen [r]) by assumption.
           simpl. now rewrite Hh, String.eqb_refl.
        -- rewrite (@first_size_seen h seen [r]) by lia.
           replace (S n + 1) with (S (S n)) by lia.
           cbv beta iota delta [count gsize]. do 2 f_equal. lia.
      * apply String.eqb_neq in E.
        rewrite get_set_other by congruence. rewrite Hget, Nat.add_0_r.
        destruct (occurrences h seen) eqn:Hocc; auto.
        now rewrite (@first_size_seen h seen [r]) by lia.
  - rewrite count_file_skip by assumption. split; auto.
    intros h. rewrite Hget, occurrences_app, occurrences_one.
    assert (Hz : match hash r with
                 | Some h' => if truthy (hash r) && String.eqb h h' then 1 else 0
                 | None => 0
                 end = 0) by (rewrite Ht; now destruct (hash r)).
    rewrite Hz, Nat.add_0_r.
    destruct (occurrences h seen) eqn:Hocc; auto.
    now rewrite (@first_size_seen h seen [r]) by lia.
Qed.

Lemma sizes_inv_fold records :
  forall d seen, sizes_inv d seen ->
                 sizes_inv (fold_left count_file records d) (seen ++ records).
Proof.
  induction records as [|r records IH]; intros d seen H; simpl.
  - now rewrite app_nil_r.
  - replace (seen ++ r :: records) with ((seen ++ [r]) ++ records)
      by now rewrite <- app_assoc.
    apply IH. now apply sizes_inv_step.
Qed.

Lemma size_groups_inv records : sizes_inv (size_groups_of records) records.
Proof.
  apply (sizes_inv_fold records (d := empty _) (seen := [])).
  split; [constructor | reflexivity].
Qed.

Lemma wasted_fold (l : list GroupInfo) :
  forall acc,
    fold_left (fun wasted_space group_info =>
                 if (1 <? count group_info)%Z
                 then (wasted_space + (count group_info - 1) * gsize group_info)%Z
                 else wasted_space) l acc
    = (acc + fold_right Z.add 0 (map wasted_of l))%Z.
Proof.
  induction l as [|g l IH]; intros acc; simpl.
  - lia.
  - rewrite IH. unfold wasted_of. destruct (1 <? count g)%Z; lia.
Qed.

Lemma calculate_wasted_space_sum records :
  calculate_wasted_space records
  = fold_right Z.add 0%Z (map wasted_of (values (size_groups_of records))).
Proof. unfold calculate_wasted_space. now rewrite wasted_fold. Qed.

(** No digest occurs twice: nothing is wasted. *)
Lemma calculate_wasted_space_no_repeat records :
  NoDup (digests records) -> calculate_wasted_space records = 0%Z.
Proof.
  intros Hnd. rewrite calculate_wasted_space_sum.
  destruct (size_groups_inv records) as [Hk Hget].
  assert (Hall : forall g, In g (values (size_groups_of records)) ->
                           wasted_of g = 0%Z).
  { intros g Hg. unfold values in Hg. apply in_map_iff in Hg.
    destruct Hg as [[h g'] [Hg Hin]]. simpl in Hg; subst g'.
    apply (In_get _ _ _ Hk) in Hin. rewrite Hget in Hin.
    pose proof (proj1 (NoDup_count_occ string_dec _) Hnd h) as Hle.
    fold (occurrences h records) in Hle.
    destruct (occurrences h records) as [|[|n]]; [discriminate| |lia].
    injection Hin as <-. reflexivity. }
  induction (values (size_groups_of records)) as [|g l IH]; simpl; auto.
  rewrite Hall by now left. rewrite IH; auto.
  intros g' Hg'. apply Hall. now right.
Qed.
End Wasted.

(** ** Wasted space and the groups of [find_duplicates]

    The two loops skip different records: the grouping loop wants a digest
    and a path, the counting loop only a digest.  They agree on inputs in
    which every record that has a digest has a path. *)

Section WastedVersusGroups.
Import PyDict PyDictFacts.

Lemma contains_keys (A B : Type) (d1 : dict A) (d2 : dict B) k :
  keys d1 = keys d2 -> contains k d1 = contains k d2.
Proof.
  intros Hk. unfold contains.
  destruct (get k d1) eqn:E1, (get k d2) eqn:E2; auto.
  - apply get_None_keys in E2. rewrite <- Hk in E2.
    apply get_None_keys in E2. congruence.
  - apply get_None_keys in E1. rewrite Hk in E1.
    apply get_None_keys in E1. congruence.
Qed.

Lemma keys_set_both (A B : Type) (d1 : dict A) (d2 : dict B) k v1 v2 :
  keys d1 = keys d2 -> keys (set k v1 d1) = keys (set k v2 d2).
Proof.
  intros Hk. rewrite !keys_set, (contains_keys d1 d2 k Hk). now rewrite Hk.
Qed.

Lemma keys_fold_both records :
  Forall digest_has_path records ->
  forall d1 d2, keys d1 = keys d2 ->
    keys (fold_left group_file records d1)
    = keys (fold_left count_file records d2).
Proof.
  induction 1 as [|r records Hr _ IH]; intros d1 d2 Hk; simpl; auto.
  apply IH. destruct (truthy (hash r)) eqn:Ht.
  - assert (Hu : usable r = true)
      by (unfold usable; rewrite Ht; simpl; now apply Hr).
    destruct (usable_fields _ Hu) as (h & p & Hh & Hp & _ & _).
    rewrite (group_file_usable d1 _ Hh Hp Hu).
    rewrite (count_file_hashed d2 r Hh Ht).
    now apply keys_set_both.
  - rewrite count_file_skip by assumption.
    rewrite group_file_skip; auto. unfold usable. now rewrite Ht.
Qed.

Lemma length_paths_with h records :
  Forall digest_has_path records ->
  List.length (paths_with h records) = occurrences h records.
Proof.
  induction 1 as [|r records Hr _ IH]; auto.
  change (r :: records) with ([r] ++ records).
  rewrite paths_with_app, occurrences_app, length_app, IH. f_equal.
  rewrite occurrences_one. simpl. unfold usable.
  destruct (hash r) as [h'|] eqn:Hh; auto.
  unfold digest_has_path in Hr. rewrite Hh in Hr.
  destruct (truthy (Some h')) eqn:Ht.
  - pose proof (Hr eq_refl) as Hp.
    destruct (path r) as [p|]; [|discriminate Hp].
    rewrite Hp. simpl. now destruct (String.eqb h h').
  - simpl. now destruct (path r).
Qed.

Lemma dict_as_keys (A : Type) (dflt : A) (d : dict A) :
  NoDup (keys d) -> d = map (fun k => (k, getitem dflt k d)) (keys d).
Proof.
  induction d as [|[k v] d IH]; simpl; auto.
  intros Hnd. inversion Hnd as [|? ? Hnotin Hnd']; subst.
  unfold getitem at 1. simpl. rewrite String.eqb_refl. f_equal.
  rewrite (IH Hnd') at 1. apply map_ext_in.
  intros k' Hk'. unfold getitem. simpl.
  destruct (String.eqb k' k) eqn:E; auto.
  apply String.eqb_eq in E. congruence.
Qed.

Lemma wasted_by_groups_sum records :
  wasted_by_groups records
  = fold_right Z.add 0%Z (map (group_waste records) (hash_groups_of records)).
Proof.
  unfold wasted_by_groups.
  induction (hash_groups_of records) as [|g l IH]; simpl; auto.
  rewrite IH. unfold group_waste. destruct (Nat.ltb 1 (List.length (snd g))); lia.
Qed.

(** On such inputs [calculate_wasted_space] is the sum, over the groups
    that [find_duplicates] returns, of one less than the member count
    times the size of the first record with the group's digest. *)
Theorem calculate_wasted_space_by_groups records :
  Forall digest_has_path records ->
  calculate_wasted_space records = wasted_by_groups records.
Proof.
  intros Hpre.
  rewrite calculate_wasted_space_sum, wasted_by_groups_sum.
  destruct (hash_groups_inv records) as [Hnd1 Hget1].
  destruct (size_groups_inv records) as [Hnd2 Hget2].
  assert (Hkeys : keys (hash_groups_of records) = keys (size_groups_of records))
    by now apply keys_fold_both.
  f_equal. unfold values.
  rewrite (@dict_as_keys _ {| count := 0; gsize := 0 |} _ Hnd2) at 1.
  rewrite (@dict_as_keys _ [] _ Hnd1) at 1.
  rewrite !map_map, <- Hkeys. apply map_ext_in.
  intros k Hk. unfold group_waste, wasted_of, getitem. simpl.
  rewrite Hget1, Hget2, <- (length_paths_with k Hpre).
  destruct (paths_with k records) as [|p l] eqn:Hp.
  - exfalso. revert Hk. apply get_None_keys. now rewrite Hget1, Hp.
  - cbn [List.length count gsize].
    destruct (Nat.ltb 1 (S (List.length l))) eqn:E.
    + apply Nat.ltb_lt in E.
      replace (1 <? Z.of_nat (S (List.length l)))%Z with true
        by (symmetry; apply Z.ltb_lt; lia).
      reflexivity.
    + apply Nat.ltb_ge in E.
      replace (1 <? Z.of_nat (S (List.length l)))%Z with false
        by (symmetry; apply Z.ltb_ge; lia).
      reflexivity.
Qed.
End WastedVersusGroups.

(** C2.  On two records with the same digest and an empty path
    [find_duplicates] returns no group, so the sum over its groups is 0,
    and [calculate_wasted_space] returns 10: the two functions do not skip
    the same records. *)
Theorem calculate_wasted_space_pathless :
  find_duplicates pathless = [] /\
  wasted_by_groups pathless = 0%Z /\
  calculate_wasted_space pathless = 10%Z.
Proof. repeat split. Qed.

(** ** Hexadecimal digests *)

Section Hex.
Lemma length_append (s1 s2 : string) :
  String.length (s1 ++ s2) = String.length s1 + String.length s2.
Proof. induction s1; simpl; auto. Qed.

Lemma list_ascii_append (s1 s2 : string) :
  list_ascii_of_string (s1 ++ s2)
  = list_ascii_of_string s1 ++ list_ascii_of_string s2.
Proof. induction s1; simpl; congruence. Qed.

Lemma hex_digit_lower (x : N) : is_lower_hex (SHA256.hex_digit x) = true.
Proof.
  unfold SHA256.hex_digit.
  assert (Hlt : N.to_nat (N.land x 0xf) < 16).
  { change 0xf%N with (N.ones 4). rewrite N.land_ones.
    pose proof (N.mod_upper_bound x (2 ^ 4)) as H.
    change (2 ^ 4)%N with 16%N in *. lia. }
  revert Hlt. generalize (N.to_nat (N.land x 0xf)). intros m Hm.
  do 16 (destruct m as [|m]; [reflexivity|]). lia.
Qed.

Lemma hex8_chars (x : N) :
  String.length (SHA256.hex8 x) = 8 /\
  Forall (fun c => is_lower_hex c = true) (list_ascii_of_string (SHA256.hex8 x)).
Proof.
  unfold SHA256.hex8. split.
  - cbn [map string_of_list_ascii String.length]. reflexivity.
  - rewrite list_ascii_of_string_of_list_ascii. cbn [map].
    repeat constructor; apply hex_digit_lower.
Qed.

Lemma hexdigest_of_lower_hex (msg : list byte) :
  lower_hex_64 (SHA256.hexdigest_of msg).
Proof.
  unfold SHA256.hexdigest_of, SHA256.hex, lower_hex_64.
  generalize (SHA256.digest msg). intros s.
  rewrite !length_append, !list_ascii_append.
  split.
  - now rewrite !(proj1 (hex8_chars _)).
  - repeat (apply Forall_app; split); apply hex8_chars.
Qed.

Lemma hexdigest_of_nonempty (msg : list byte) : SHA256.hexdigest_of msg <> "".
Proof.
  intros H. pose proof (proj1 (hexdigest_of_lower_hex msg)) as Hl.
  rewrite H in Hl. discriminate.
Qed.
End Hex.

(** The published test vectors for the empty message and for ["abc"]. *)
Example sha256_test_vectors :
  SHA256.hexdigest_of []
  = "e3b0c44298fc1c149afbf4c8996fb92427ae41e4649b934ca495991b7852b855" /\
  SHA256.hexdigest_of (list_byte_of_string "abc")
  = "ba7816bf8f01cfea414140de5dae2223b00361a396177a9cb410ff61f20015ad".
Proof. split; vm_compute; reflexivity. Qed.

(** ** Reading a file in chunks *)

Section Chunks.
Lemma take_app n l chunk rest : take n l = (chunk, rest) -> l = chunk ++ rest.
Proof.
  revert n chunk rest. induction l as [|b l IH]; intros n chunk rest; simpl.
  - now intros [= <- <-].
  - destruct (N.eqb n 0).
    + now intros [= <- <-].
    + destruct (take (N.pred n) l) as [c r] eqn:E.
      intros [= <- <-]. simpl. f_equal. eauto.
Qed.

Lemma take_length n l chunk rest :
  take n l = (chunk, rest) ->
  N.of_nat (List.length chunk) = N.min n (N.of_nat (List.length l)).
Proof.
  revert n chunk rest. induction l as [|b l IH]; intros n chunk rest; simpl.
  - intros [= <- <-]. simpl. lia.
  - destruct (N.eqb n 0) eqn:E0.
    + apply N.eqb_eq in E0. intros [= <- <-]. simpl. lia.
    + apply N.eqb_neq in E0.
      destruct (take (N.pred n) l) as [c r] eqn:E.
      intros [= <- <-]. apply IH in E. simpl List.length. lia.
Qed.

Variable n : N.
Hypothesis n_positive : (0 < n)%N.

Lemma take_nil l rest : take n l = ([], rest) -> l = [].
Proof.
  intros H. pose proof (take_length _ _ H) as Hl. simpl in Hl.
  destruct l; [reflexivity | simpl in Hl; lia].
Qed.

(** Past a call that did not raise and returned a chunk, the error is
    hit from the next call on exactly when it was hit from this one. *)
Lemma fault_hit_next l chunk rest r k :
  take n l = (chunk, rest) -> chunk <> [] -> k <> r ->
  fault_hit n rest (S r) (Some k) = fault_hit n l r (Some k).
Proof.
  intros Ht Hne Hk.
  pose proof (take_length _ _ Ht) as Hlen.
  pose proof (take_app _ _ Ht) as Happ.
  assert (Hsum : List.length l = List.length chunk + List.length rest)
    by (rewrite Happ; apply length_app).
  assert (Hpos : 0 < List.length chunk)
    by (destruct chunk; [congruence | simpl; lia]).
  unfold fault_hit. apply Bool.eq_iff_eq_true.
  rewrite !andb_true_iff, !Nat.leb_le, !N.ltb_lt.
  destruct (Nat.le_gt_cases k r) as [Hle|Hgt]; [lia|].
  replace (N.of_nat (k - r)) with (N.of_nat (k - S r) + 1)%N by lia.
  set (x := N.of_nat (k - S r)) in *.
  split; intros [_ H]; (split; [lia|]).
  - destruct (N.le_gt_cases n (N.of_nat (List.length l))); nia.
  - destruct (N.le_gt_cases n (N.of_nat (List.length l))); nia.
Qed.

Lemma fault_hit_now l r : fault_hit n l r (Some r) = true.
Proof.
  unfold fault_hit. rewrite Nat.leb_refl, Nat.sub_diag.
  apply andb_true_iff. split; [reflexivity|]. apply N.ltb_lt. lia.
Qed.

Lemma fault_hit_end r flt : flt <> Some r -> fault_hit n [] r flt = false.
Proof.
  intros Hne. destruct flt as [k|]; [|reflexivity].
  apply Bool.not_true_is_false. unfold fault_hit.
  rewrite andb_true_iff, Nat.leb_le, N.ltb_lt. intros [H1 H2].
  assert (k <> r) by congruence.
  change (N.of_nat (List.length (@nil byte))) with 0%N in H2. nia.
Qed.

Lemma fault_hit_later l chunk rest r flt :
  take n l = (chunk, rest) -> chunk <> [] -> flt <> Some r ->
  fault_hit n rest (S r) flt = fault_hit n l r flt.
Proof.
  intros Ht Hne Hflt. destruct flt as [k|]; [|reflexivity].
  apply fault_hit_next with (chunk := chunk); congruence.
Qed.

(** One call of [read] that does not raise, and what follows it. *)
Lemma update_chunks_step fuel rest r flt acc :
  flt <> Some r ->
  update_chunks (S fuel) n (mkHandle rest r flt) acc
  = match take n rest with
    | ([], _) => Some (Ok acc)
    | (chunk, rest') =>
        update_chunks fuel n (mkHandle rest' (S r) flt) (hashlib.update acc chunk)
    end.
Proof.
  intros Hflt. cbn [update_chunks]. unfold read. cbn [remaining reads fault].
  destruct flt as [k|].
  - destruct (Nat.eqb k r) eqn:Ek.
    + apply Nat.eqb_eq in Ek. congruence.
    + destruct (take n rest) as [[|b chunk] rest']; reflexivity.
  - destruct (take n rest) as [[|b chunk] rest']; reflexivity.
Qed.

Lemma update_chunks_fault fuel rest r acc :
  update_chunks (S fuel) n (mkHandle rest r (Some r)) acc = Some (Raise io_error).
Proof.
  cbn [update_chunks]. unfold read. cbn [remaining reads fault].
  now rewrite Nat.eqb_refl.
Qed.

(** The loop of [generate_file_hash]: with more fuel than there are
    bytes left it ends, with the error when the faulty call is among the
    calls it makes and otherwise with every byte fed to the
    accumulator. *)
Lemma update_chunks_spec fuel :
  forall rest r flt acc,
    List.length rest < fuel ->
    update_chunks fuel n (mkHandle rest r flt) acc
    = if fault_hit n rest r flt then Some (Raise io_error)
      else Some (Ok (hashlib.mk_sha256 (hashlib.fed acc ++ rest))).
Proof.
  induction fuel as [|fuel IH]; intros rest r flt acc Hfuel; [lia|].
  assert (Hdec : flt = Some r \/ flt <> Some r).
  { destruct flt as [k|]; [|right; discriminate].
    destruct (Nat.eq_dec k r); [left | right]; congruence. }
  destruct Hdec as [->|Hflt].
  - now rewrite update_chunks_fault, fault_hit_now.
  - rewrite update_chunks_step by assumption.
    destruct (take n rest) as [chunk rest'] eqn:Ht.
    destruct chunk as [|b chunk].
    + pose proof (take_nil _ Ht) as Hnil. subst rest.
      rewrite fault_hit_end by assumption.
      rewrite app_nil_r. now destruct acc.
    + pose proof (take_app _ _ Ht) as Happ.
      rewrite IH.
      * rewrite (fault_hit_later _ Ht) by (assumption || discriminate).
        unfold hashlib.update. cbn [hashlib.fed].
        now rewrite <- app_assoc, <- Happ.
      * rewrite Happ, length_app in Hfuel. simpl in Hfuel. lia.
Qed.
End Chunks.

(** ** [generate_file_hash] *)

Lemma CHUNK_SIZE_positive : (0 < CHUNK_SIZE)%N.
Proof. reflexivity. Qed.

Lemma fault_hit_read_fails (d : FileData) :
  fault_hit CHUNK_SIZE (content d) 0 (read_fault d) = read_fails d.
Proof.
  unfold fault_hit, read_fails. destruct (read_fault d) as [k|]; auto.
  now rewrite Nat.sub_0_r.
Qed.

(** On a regular file the result is the digest of the whole content when
    the file opens and no call of [read] that the loop makes raises, and
    the empty string otherwise. *)
Lemma generate_file_hash_file (d : FileData) :
  generate_file_hash (Some (NFile d))
  = if open_ok d && negb (read_fails d)
    then Ok (SHA256.hexdigest_of (content d))
    else Ok "".
Proof.
  unfold generate_file_hash, open_rb. cbn [Path.is_file].
  destruct (open_ok d); [|reflexivity].
  rewrite (update_chunks_spec CHUNK_SIZE_positive) by lia.
  rewrite fault_hit_read_fails. destruct (read_fails d); reflexivity.
Qed.

(** C4.  On a path that cannot be examined [is_file] raises
    [PermissionError], outside the [try] of [generate_file_hash], and so
    does [generate_file_hash]: it returns neither the empty string nor a
    digest, so it does not return a string on every path. *)
Theorem generate_file_hash_denied :
  Path.is_file (Some NDenied) = Raise permission_denied /\
  generate_file_hash (Some NDenied) = Raise permission_denied /\
  ~ (forall target, exists digest, generate_file_hash target = Ok digest).
Proof.
  split; [reflexivity|]. split; [reflexivity|].
  intros Hall. destruct (Hall (Some NDenied)) as [digest Hdigest].
  discriminate Hdigest.
Qed.

(** Where [is_file] answers: [generate_file_hash] returns the empty string
    when the answer is that the path is not an existing regular file, and
    when the file does not open or a call of [read] made while streaming
    raises; on a regular file read without error it returns the SHA-256 of
    the whole content as 64 lowercase hexadecimal digits, so two such files
    with the same bytes get the same digest string. *)
Theorem generate_file_hash_spec :
  (forall target,
     Path.is_file target = Ok false -> generate_file_hash target = Ok "") /\
  (forall d,
     open_ok d = false \/ read_fails d = true ->
     generate_file_hash (Some (NFile d)) = Ok "") /\
  (forall d,
     open_ok d = true -> read_fails d = false ->
     generate_file_hash (Some (NFile d)) = Ok (SHA256.hexdigest_of (content d)) /\
     lower_hex_64 (SHA256.hexdigest_of (content d))) /\
  (forall d1 d2,
     open_ok d1 = true -> read_fails d1 = false ->
     open_ok d2 = true -> read_fails d2 = false ->
     content d1 = content d2 ->
     generate_file_hash (Some (NFile d1)) = generate_file_hash (Some (NFile d2))).
Proof.
  split; [|split; [|split]].
  - intros target H. unfold generate_file_hash. now rewrite H.
  - intros d H. rewrite generate_file_hash_file.
    destruct H as [-> | ->]; [reflexivity | now rewrite andb_false_r].
  - intros d Ho Hr. split; [|apply hexdigest_of_lower_hex].
    rewrite generate_file_hash_file. now rewrite Ho, Hr.
  - intros d1 d2 Ho1 Hr1 Ho2 Hr2 Hc. rewrite !generate_file_hash_file.
    now rewrite Ho1, Hr1, Ho2, Hr2, Hc.
Qed.

Lemma generate_file_hash_spec_witness :
  generate_file_hash None = Ok "" /\
  generate_file_hash
    (Some (NFile (mkFileData (Some 3%N) true (list_byte_of_string "abc") (Some 1)))) = Ok "" /\
  generate_file_hash (Some (NFile (regular_file "abc")))
  = Ok (SHA256.hexdigest_of (list_byte_of_string "abc")) /\
  generate_file_hash (Some (NFile (regular_file "abc")))
  = generate_file_hash
      (Some (NFile (mkFileData None true (list_byte_of_string "abc") (Some 2)))).
Proof.
  destruct generate_file_hash_spec as (Hnone & Hfail & Hread & Hsame).
  split; [|split; [|split]].
  - apply Hnone. reflexivity.
  - apply Hfail. right. reflexivity.
  - apply (Hread (regular_file "abc")); reflexivity.
  - apply Hsame; reflexivity.
Defined.

(** ** One file *)

Section CollectFileInfo.
Variable cwd : list string.

(** [_collect_file_info] on a regular file: a record when [stat]
    succeeds and the digest is computed, nothing otherwise. *)
Lemma collect_file_info_file (file_path : Path.t) (d : FileData) :
  _collect_file_info cwd file_path (NFile d)
  = Ok match st_size d with
       | Some n =>
           if open_ok d && negb (read_fails d)
           then Some {| path := Some (Path.str (Path.absolute cwd file_path));
                        size := Some (Z.of_N n);
                        name := Some (Path.name file_path);
                        hash := Some (SHA256.hexdigest_of (content d)) |}
           else None
       | None => None
       end.
Proof.
  unfold _collect_file_info. cbn [Path.stat_size].
  destruct (st_size d) as [n|]; [|reflexivity].
  rewrite generate_file_hash_file.
  destruct (open_ok d && negb (read_fails d)); [|reflexivity].
  pose proof (@hexdigest_of_nonempty (content d)) as Hne.
  apply truthy_Some in Hne. now rewrite Hne.
Qed.

(** It never raises. *)
Lemma collect_file_info_returns (file_path : Path.t) (target : Node) :
  exists r, _collect_file_info cwd file_path target = Ok r.
Proof.
  destruct target as [d|l| |].
  - rewrite collect_file_info_file. eauto.
  - exists None. reflexivity.
  - exists None. reflexivity.
  - exists None. reflexivity.
Qed.

Lemma collected_file (item : Path.t) (d : FileData) :
  collected cwd item (NFile d)
  = match st_size d with
    | Some n =>
        if open_ok d && negb (read_fails d)
        then [ {| path := Some (Path.str (Path.absolute cwd item));
                  size := Some (Z.of_N n);
                  name := Some (Path.name item);
                  hash := Some (SHA256.hexdigest_of (content d)) |} ]
        else []
    | None => []
    end.
Proof.
  unfold collected. rewrite collect_file_info_file.
  destruct (st_size d); [|reflexivity].
  now destruct (open_ok d && negb (read_fails d)).
Qed.
End CollectFileInfo.

(** ** The traversal *)

Section ScanRun.
Variable S : Type.
Variable progress_callback : option (Sink S).
Variable cwd : list string.

Local Abbreviation ran := (ran progress_callback).
Local Abbreviation scan_one := (scan_item progress_callback cwd).
Local Abbreviation scan_tree := (_scan_recursive progress_callback cwd).

Lemma deliver_app (e1 e2 : list Event) (s : S) :
  deliver progress_callback (e1 ++ e2) s
  = deliver progress_callback e2 (deliver progress_callback e1 s).
Proof.
  unfold deliver. destruct progress_callback; [apply fold_left_app | reflexivity].
Qed.

Lemma report_run (message : string) (st : Scanner S) :
  report progress_callback message st
  = ran st [] [(scanned_files st, message)].
Proof.
  unfold report, ran, deliver. rewrite app_nil_r.
  destruct progress_callback; [reflexivity | now destruct st].
Qed.

Lemma ran_ran (st : Scanner S) r1 e1 r2 e2 :
  ran (snd (ran st r1 e1)) r2 e2 = ran st (r1 ++ r2) (e1 ++ e2).
Proof.
  unfold ran. cbn [snd scanned_files sink_state].
  now rewrite deliver_app, app_assoc.
Qed.

Lemma scan_item_run (self : Path.t -> Node -> M S unit)
      (item : Path.t) (target : Node) (st : Scanner S) :
  (forall l, target = NDir l ->
             self item target st
             = ran st (records_of cwd item target)
                   (events_of cwd item target (scanned_files st))) ->
  scan_one self item target st
  = ran st (item_records cwd (records_of cwd) item target)
        (item_events cwd (events_of cwd) item target (scanned_files st)).
Proof.
  intros Hself. destruct target as [d|l| |].
  - (* a regular file *)
    unfold scan_item, try_except_os, bind, lift.
    cbn [Path.is_dir Path.is_file item_records item_events].
    rewrite report_run. cbn [ran fst snd].
    unfold collected.
    destruct (collect_file_info_returns cwd item (NFile d)) as [r Hr].
    rewrite Hr. unfold get_scanned_files.
    destruct r as [file_info|].
    + unfold append_scanned. cbn [scanned_files sink_state].
      rewrite app_nil_r.
      destruct (Nat.eqb (Nat.modulo (List.length (scanned_files st ++ [file_info])) 100) 0).
      * unfold has_callback, report, ran, deliver.
        cbn [scanned_files sink_state].
        destruct progress_callback; reflexivity.
      * rewrite andb_false_r. reflexivity.
    + unfold ret. cbn [scanned_files sink_state].
      rewrite !app_nil_r.
      destruct (Nat.eqb (Nat.modulo (List.length (scanned_files st)) 100) 0).
      * unfold has_callback, report, ran, deliver.
        cbn [scanned_files sink_state]. rewrite app_nil_r.
        destruct progress_callback; reflexivity.
      * rewrite andb_false_r. unfold ran. cbn [scanned_files sink_state].
        now rewrite app_nil_r.
  - (* a directory *)
    unfold scan_item, try_except_os, bind, lift.
    cbn [Path.is_dir item_records item_events].
    now rewrite (Hself l eq_refl).
  - (* neither a file nor a directory *)
    unfold scan_item, try_except_os, bind, lift, ret, ran, deliver.
    cbn [Path.is_dir Path.is_file item_records item_events].
    rewrite app_nil_r. destruct progress_callback; now destruct st.
  - (* an entry that cannot be examined *)
    unfold scan_item, try_except_os, bind, lift.
    cbn [Path.is_dir item_records item_events].
    apply report_run.
Qed.

Lemma for_each_run (path : Path.t) (entries : list (string * Node)) :
  Forall (fun entry =>
            forall item st,
              scan_tree item (snd entry) st
              = ran st (records_of cwd item (snd entry))
                    (events_of cwd item (snd entry) (scanned_files st)))
         entries ->
  forall st,
    for_each entries
             (fun entry => scan_one scan_tree
                                     (Path.joinpath path (fst entry)) (snd entry))
             st
    = ran st (records_of cwd path (NDir (Some entries)))
          (entries_events cwd path entries (scanned_files st)).
Proof.
  induction 1 as [|entry entries Hentry _ IH]; intros st.
  - unfold ran, deliver. cbn. rewrite app_nil_r.
    destruct progress_callback; now destruct st.
  - cbn [for_each]. unfold bind at 1.
    rewrite scan_item_run by (intros; apply Hentry).
    unfold ran at 1. change (for_each entries ?b) with (for_each entries b) in IH.
    unfold for_each in IH. rewrite IH.
    cbn [records_of flat_map entries_events scanned_files sink_state].
    unfold ran. cbn [scanned_files sink_state].
    now rewrite deliver_app, app_assoc.
Qed.

Lemma events_of_dir (path : Path.t) (entries : list (string * Node)) files :
  events_of cwd path (NDir (Some entries)) files
  = entries_events cwd path entries files.
Proof.
  revert files. induction entries as [|entry entries IH]; intros files.
  - reflexivity.
  - cbn [entries_events]. rewrite <- IH. reflexivity.
Qed.

(** [_scan_recursive] returns normally on every tree; it records
    [records_of] and tells the callback [events_of]. *)
Lemma scan_recursive_run (target : Node) :
  forall path st,
    scan_tree path target st
    = ran st (records_of cwd path target)
          (events_of cwd path target (scanned_files st)).
Proof.
  induction target as [d| |entries IH| |] using Node_tree_ind; intros path st.
  - apply report_run.
  - apply report_run.
  - rewrite events_of_dir.
    cbn [_scan_recursive]. unfold try_except_os.
    now rewrite (for_each_run path IH).
  - apply report_run.
  - apply report_run.
Qed.
End ScanRun.

(** ** [scan_directory] *)

Section ScanDirectory.
Variable S : Type.
Variable progress_callback : option (Sink S).
Variable cwd : list string.
Variable directory_path : string.

(** A missing root. *)
Lemma scan_directory_missing (st : Scanner S) :
  scan_directory progress_callback cwd directory_path None st
  = (Raise (mkExc ValueError ("Directory does not exist: " ++ directory_path)),
     mkScanner [] (sink_state st)).
Proof. reflexivity. Qed.

(** A root that is there and is not a directory. *)
Lemma scan_directory_not_a_directory (target : option Node) (st : Scanner S) :
  Path.exists_ target = Ok true -> Path.is_dir target = Ok false ->
  scan_directory progress_callback cwd directory_path target st
  = (Raise (mkExc ValueError ("Path is not a directory: " ++ directory_path)),
     mkScanner [] (sink_state st)).
Proof.
  intros He Hd. unfold scan_directory, bind, lift, set_scanned_files, raise.
  now rewrite He, Hd.
Qed.

(** A directory: the scan returns normally. *)
Lemma scan_directory_run (listing : option (list (string * Node)))
      (st : Scanner S) :
  let path := Path.of_string directory_path in
  let files := records_of cwd path (NDir listing) in
  scan_directory progress_callback cwd directory_path (Some (NDir listing)) st
  = (Ok files,
     mkScanner files
       (deliver progress_callback
          (([], "Starting scan...")
             :: events_of cwd path (NDir listing) []
             ++ [(files, "Scan complete! Found "
                           ++ decimal (List.length files) ++ " files.")%string])
          (sink_state st))).
Proof.
  intros path files.
  unfold scan_directory, bind, lift, set_scanned_files.
  cbn [Path.exists_ Path.is_dir negb].
  rewrite report_run. cbn [ran fst snd scanned_files sink_state app].
  fold path. rewrite scan_recursive_run.
  cbn [ran fst snd scanned_files sink_state app]. fold files.
  unfold get_scanned_files. cbn [scanned_files sink_state].
  rewrite report_run. cbn [ran fst snd scanned_files sink_state app].
  rewrite app_nil_r.
  change (([], "Starting scan...")
            :: events_of cwd path (NDir listing) [] ++ [(files, ("Scan complete! Found "
                           ++ decimal (List.length files) ++ " files.")%string)])
    with ([(@nil FileInfo, "Starting scan...")]
            ++ events_of cwd path (NDir listing) [] ++ [(files, ("Scan complete! Found "
                           ++ decimal (List.length files) ++ " files.")%string)]).
  now rewrite !deliver_app.
Qed.
End ScanDirectory.

(** What [scan_directory] returns does not depend on the callback. *)
Lemma scan_directory_result (S : Type) (progress_callback : option (Sink S))
      (cwd : list string) (directory_path : string) (target : option Node)
      (st : Scanner S) :
  fst (scan_directory progress_callback cwd directory_path target st)
  = match target with
    | None =>
        Raise (mkExc ValueError ("Directory does not exist: " ++ directory_path))
    | Some NDenied => Raise permission_denied
    | Some (NDir listing) =>
        Ok (records_of cwd (Path.of_string directory_path) (NDir listing))
    | Some _ =>
        Raise (mkExc ValueError ("Path is not a directory: " ++ directory_path))
    end.
Proof.
  destruct target as [[d|listing| |]|].
  - now rewrite scan_directory_not_a_directory.
  - now rewrite scan_directory_run.
  - now rewrite scan_directory_not_a_directory.
  - reflexivity.
  - reflexivity.
Qed.


(** ** The root of the scan *)

(** C5, as stated, fails: on a missing root and on a root that is a regular
    file the exception is a [ValueError], not a [FileNotFoundError] and not
    a [NotADirectoryError]. *)
Lemma scan_directory_root_error_class :
  (exists e,
     fst (scan_directory (S := unit) None [] "/nope" None (mkScanner [] tt)) = Raise e /\
     exc_class e = ValueError /\ exc_class e <> FileNotFoundError) /\
  (exists e,
     fst (scan_directory (S := unit) None [] "/etc/hosts"
                         (Some (NFile (regular_file "localhost"))) (mkScanner [] tt))
     = Raise e /\
     exc_class e = ValueError /\ exc_class e <> NotADirectoryError).
Proof.
  split; eexists; (split; [reflexivity | split; [reflexivity | discriminate]]).
Qed.

(** C5, amended.  A missing root makes [scan_directory] raise
    [ValueError] with the message ["Directory does not exist: <path>"], a
    root that is there and is not a directory makes it raise [ValueError]
    with ["Path is not a directory: <path>"]; in both cases nothing was
    recorded and the callback was not called, and [main] of [cli/scan.py]
    exits with status 1 and leaves the index file as it was. *)
Theorem scan_directory_root_errors
        (S : Type) (progress_callback : option (Sink S)) (cwd : list string)
        (directory_path : string) (st : Scanner S) :
  scan_directory progress_callback cwd directory_path None st
  = (Raise (mkExc ValueError ("Directory does not exist: " ++ directory_path)),
     mkScanner [] (sink_state st)) /\
  (forall target,
     Path.exists_ target = Ok true -> Path.is_dir target = Ok false ->
     scan_directory progress_callback cwd directory_path target st
     = (Raise (mkExc ValueError ("Path is not a directory: " ++ directory_path)),
        mkScanner [] (sink_state st))) /\
  (forall target program more INDEX_FILE_PATH proc,
     target = None \/ (Path.exists_ target = Ok true /\ Path.is_dir target = Ok false) ->
     let outcome := cli_scan.main INDEX_FILE_PATH cwd
                                  (program :: directory_path :: more) target proc in
     fst outcome = 1 /\
     cli_scan.index_file (snd outcome) = cli_scan.index_file proc).
Proof.
  split; [apply scan_directory_missing|].
  split; [intros; now apply scan_directory_not_a_directory|].
  intros target program more INDEX_FILE_PATH proc H outcome. subst outcome.
  unfold cli_scan.main. destruct H as [->|[He Hd]].
  - rewrite scan_directory_missing. split; reflexivity.
  - rewrite scan_directory_not_a_directory by assumption. split; reflexivity.
Qed.

Lemma scan_directory_root_errors_witness :
  scan_directory (Some logger) ["home"] "/etc/hosts"
                 (Some (NFile (regular_file "localhost"))) (mkScanner [] [])
  = (Raise (mkExc ValueError "Path is not a directory: /etc/hosts"),
     mkScanner [] []) /\
  fst (cli_scan.main "data/file_index.json" ["home"] ["scan.py"; "/etc/hosts"]
                     (Some (NFile (regular_file "localhost")))
                     (cli_scan.mkProcess [] None)) = 1 /\
  cli_scan.index_file
    (snd (cli_scan.main "data/file_index.json" ["home"] ["scan.py"; "/etc/hosts"]
                        (Some (NFile (regular_file "localhost")))
                        (cli_scan.mkProcess [] None))) = None.
Proof.
  destruct (@scan_directory_root_errors _ (Some logger) ["home"] "/etc/hosts"
                                        (mkScanner [] []))
    as (_ & Hfile & Hmain).
  split.
  - apply Hfile; reflexivity.
  - apply (Hmain (Some (NFile (regular_file "localhost"))) "scan.py" []
                 "data/file_index.json" (cli_scan.mkProcess [] None)).
    right. split; reflexivity.
Defined.

(** ** The records of a scan *)

Section Records.
Variable cwd : list string.

Lemma last_app_nonempty (A : Type) (l1 l2 : list A) (d : A) :
  l2 <> [] -> last (l1 ++ l2) d = last l2 d.
Proof.
  intros Hne. induction l1 as [|a l1 IH]; auto.
  simpl. rewrite IH. destruct (l1 ++ l2) eqn:E; auto.
  apply app_eq_nil in E. tauto.
Qed.

Lemma name_absolute (q : Path.t) :
  Path.parts q <> [] -> Path.name (Path.absolute cwd q) = Path.name q.
Proof.
  intros Hne. unfold Path.name, Path.absolute.
  destruct (Path.anchored q); auto. simpl. now apply last_app_nonempty.
Qed.

Lemma str_absolute (q : Path.t) :
  String.prefix "/" (Path.str (Path.absolute cwd q)) = true.
Proof.
  unfold Path.absolute. destruct (Path.anchored q) eqn:E; unfold Path.str.
  - rewrite E. simpl. now destruct (String.concat "/" (Path.parts q)).
  - simpl. now destruct (String.concat "/" (cwd ++ Path.parts q)).
Qed.

(** A file found below [path] has a path that extends [path]. *)
Lemma file_at_parts path target q d :
  file_at path target q d ->
  exists rest, Path.parts q = Path.parts path ++ rest /\
               (forall l, target = NDir l -> rest <> []).
Proof.
  induction 1 as [path d | path entries entry child q d Hin Hat IH].
  - exists []. split; [now rewrite app_nil_r | discriminate].
  - destruct IH as (rest & Hparts & _). exists (entry :: rest). split.
    + rewrite Hparts. simpl. now rewrite <- app_assoc.
    + discriminate.
Qed.

(** Every record comes from a regular file of the tree that [stat]
    and the hashing loop could read. *)
Lemma In_records_of (target : Node) :
  forall path r,
    In r (records_of cwd path target) ->
    exists q d n,
      file_at path target q d /\ st_size d = Some n /\
      open_ok d = true /\ read_fails d = false /\
      r = record_of cwd q d n.
Proof.
  induction target as [d| |entries IH| |] using Node_tree_ind;
    intros path r Hin; try contradiction.
  cbn [records_of] in Hin. apply in_flat_map in Hin.
  destruct Hin as ([entry child] & Hentry & Hin). cbn [fst snd] in Hin.
  rewrite Forall_forall in IH. specialize (IH _ Hentry). cbn [snd] in IH.
  destruct child as [d|l| |]; cbn [item_records] in Hin; try contradiction.
  - rewrite collected_file in Hin.
    destruct (st_size d) as [n|] eqn:Hsize; [|contradiction].
    destruct (open_ok d) eqn:Hopen; [|contradiction].
    destruct (read_fails d) eqn:Hread; [contradiction|].
    destruct Hin as [<-|[]].
    exists (Path.joinpath path entry), d, n. repeat split; auto.
    eapply file_below; [eassumption | constructor].
  - destruct (IH _ _ Hin) as (q & d & n & Hat & ?).
    exists q, d, n. split; [|assumption].
    eapply file_below; eassumption.
Qed.

Lemma records_of_well_formed (path : Path.t) (listing : option (list (string * Node))) :
  Forall (well_formed_record cwd path (NDir listing))
         (records_of cwd path (NDir listing)).
Proof.
  apply Forall_forall. intros r Hin.
  destruct (In_records_of _ _ _ Hin) as (q & d & n & Hat & Hsize & Hopen & Hread & ->).
  exists q, d, n.
  split; [exact Hat|]. split; [exact Hsize|].
  split; [rewrite generate_file_hash_file; now rewrite Hopen, Hread|].
  split; [reflexivity|].
  split; [apply hexdigest_of_nonempty|].
  split; [apply hexdigest_of_lower_hex|].
  split; [lia|].
  split; [apply str_absolute|].
  destruct (file_at_parts Hat) as (rest & Hparts & Hrest).
  apply name_absolute. rewrite Hparts. intros Hnil.
  apply app_eq_nil in Hnil. now apply (Hrest listing eq_refl).
Qed.
End Records.

(** C3.  Every record that [scan_directory] returns is the record of a
    regular file of the scanned tree for which [stat] succeeded and the
    digest was computed: its digest is the 64 hexadecimal digits of the
    SHA-256 of the content, hence not empty, its size is the non-negative
    size reported by [stat], its path is absolute and its name is the last
    component of that path.  A file whose digest could not be computed has
    no record. *)
Theorem scan_directory_records
        (S : Type) (progress_callback : option (Sink S)) (cwd : list string)
        (directory_path : string) (target : option Node)
        (st st' : Scanner S) (files : list FileInfo) :
  scan_directory progress_callback cwd directory_path target st = (Ok files, st') ->
  exists root,
    target = Some root /\
    Forall (well_formed_record cwd (Path.of_string directory_path) root) files /\
    Forall (fun r => exists h, hash r = Some h /\ h <> "") files.
Proof.
  intros Hscan.
  pose proof (scan_directory_result progress_callback cwd directory_path target st)
    as Hres.
  rewrite Hscan in Hres. cbn [fst] in Hres.
  destruct target as [[d|listing| |]|]; try discriminate.
  injection Hres as ->. exists (NDir listing). split; [reflexivity|].
  pose proof (records_of_well_formed cwd (Path.of_string directory_path) listing)
    as Hwf.
  split; [exact Hwf|].
  eapply Forall_impl; [|exact Hwf].
  intros r (q & d & n & _ & _ & _ & -> & Hne & _).
  exists (SHA256.hexdigest_of (content d)). split; [reflexivity | exact Hne].
Qed.

Lemma scan_directory_records_witness :
  exists root,
    Some sample_tree = Some root /\
    Forall (well_formed_record ["home"] (Path.of_string "docs") root)
           [ mkFileInfo (Some "/home/docs/notes.txt") (Some 3%Z) (Some "notes.txt")
                        (Some "ba7816bf8f01cfea414140de5dae2223b00361a396177a9cb410ff61f20015ad") ] /\
    Forall (fun r => exists h, hash r = Some h /\ h <> "")
           [ mkFileInfo (Some "/home/docs/notes.txt") (Some 3%Z) (Some "notes.txt")
                        (Some "ba7816bf8f01cfea414140de5dae2223b00361a396177a9cb410ff61f20015ad") ].
Proof.
  apply (@scan_directory_records unit None ["home"] "docs" (Some sample_tree)
           (mkScanner [] tt)
           (mkScanner
              [ mkFileInfo (Some "/home/docs/notes.txt") (Some 3%Z) (Some "notes.txt")
                           (Some "ba7816bf8f01cfea414140de5dae2223b00361a396177a9cb410ff61f20015ad") ]
              tt)).
  vm_compute. reflexivity.
Defined.

(** ** Entries that cannot be used *)

Section Inaccessible.
Variable cwd : list string.

Lemma item_records_inaccessible (item : Path.t) (bad : Node) :
  inaccessible bad -> item_records cwd (records_of cwd) item bad = [].
Proof.
  intros H. destruct H as [ | |d Hd|d Hd|d Hd]; cbn [item_records records_of];
    try reflexivity; rewrite collected_file.
  - now rewrite Hd.
  - rewrite Hd. now destruct (st_size d).
  - rewrite Hd, andb_false_r. now destruct (st_size d).
Qed.

Lemma item_events_inaccessible (item : Path.t) (bad : Node) files :
  inaccessible bad ->
  In (files, notice item bad)
     (item_events cwd (events_of cwd) item bad files).
Proof.
  intros H. destruct H; cbn [item_events events_of notice]; now left.
Qed.

Lemma records_of_without (path : Path.t) before entry bad after :
  inaccessible bad ->
  records_of cwd path (NDir (Some (before ++ (entry, bad) :: after)))
  = records_of cwd path (NDir (Some (before ++ after))).
Proof.
  intros H. cbn [records_of]. rewrite !flat_map_app. f_equal.
  cbn [flat_map fst snd]. now rewrite item_records_inaccessible.
Qed.

Lemma entries_events_app (path : Path.t) (es1 es2 : list (string * Node)) :
  forall files,
    entries_events cwd path (es1 ++ es2) files
    = entries_events cwd path es1 files
      ++ entries_events cwd path es2
           (files ++ records_of cwd path (NDir (Some es1))).
Proof.
  induction es1 as [|e es1 IH]; intros files.
  - cbn. now rewrite app_nil_r.
  - cbn [app entries_events]. rewrite IH. cbn [records_of flat_map].
    now rewrite <- !app_assoc.
Qed.

Lemma deliver_logger (events : list Event) :
  forall log,
    deliver (Some logger) events log
    = log ++ map (fun e => (List.length (fst e), snd e)) events.
Proof.
  unfold deliver. induction events as [|e events IH]; intros log; cbn.
  - now rewrite app_nil_r.
  - rewrite IH. unfold logger. now rewrite <- app_assoc.
Qed.

(** The logging callback hears of every event of the scan. *)
Lemma logger_hears (directory_path : string) listing files message log :
  In (files, message)
     (events_of cwd (Path.of_string directory_path) (NDir listing) []) ->
  In (List.length files, message)
     (sink_state (snd (scan_directory (Some logger) cwd directory_path
                                      (Some (NDir listing)) (mkScanner [] log)))).
Proof.
  intros Hin. rewrite scan_directory_run. cbn [snd sink_state].
  rewrite deliver_logger. apply in_or_app. right.
  cbn [map]. right. rewrite map_app. apply in_or_app. left.
  change (List.length files, message)
    with ((fun e : Event => (List.length (fst e), snd e)) (files, message)).
  now apply in_map.
Qed.
End Inaccessible.

(** ** Milestones *)

(** C9.  A scan of a directory whose only entry is a regular file that
    does not open records nothing, and the callback is told
    ["Files found: 0"]: the milestone is reported although the number of
    recorded files did not reach a new multiple of 100. *)
Theorem scan_directory_milestone_without_record :
  scan_directory (Some logger) ["home"] "docs" (Some locked_file_tree)
                 (mkScanner [] [])
  = (Ok [],
     mkScanner []
       [ (0, "Starting scan...");
         (0, "Scanning: docs/locked.bin");
         (0, "Files found: 0");
         (0, "Scan complete! Found 0 files.") ]).
Proof. vm_compute. reflexivity. Qed.


(** * Further properties *)

(** ** The order of the groups *)

Section FirstSeen.
Import PyDict PyDictFacts.

Lemma filter_comm (A : Type) (p q : A -> bool) (l : list A) :
  filter p (filter q l) = filter q (filter p l).
Proof.
  induction l as [|a l IH]; simpl; auto.
  destruct (p a) eqn:Hp, (q a) eqn:Hq; simpl; rewrite ?Hp, ?Hq, IH; auto.
Qed.

Lemma filter_without_rejected (p : string -> bool) (x : string) (l : list string) :
  p x = false ->
  filter p (filter (fun y => negb (String.eqb x y)) l) = filter p l.
Proof.
  intros Hx. induction l as [|y l IH]; simpl; auto.
  destruct (String.eqb x y) eqn:E; simpl.
  - apply String.eqb_eq in E. subst y. now rewrite Hx.
  - now rewrite IH.
Qed.

Lemma first_seen_filter (p : string -> bool) (l : list string) :
  first_seen (filter p l) = filter p (first_seen l).
Proof.
  induction l as [|x l IH]; simpl; auto.
  destruct (p x) eqn:Hp; simpl.
  - now rewrite IH, filter_comm.
  - now rewrite IH, filter_without_rejected.
Qed.

Lemma existsb_eqb_In (h : string) (ks : list string) :
  existsb (String.eqb h) ks = true <-> In h ks.
Proof.
  rewrite existsb_exists. split.
  - intros (x & Hin & Heq). apply String.eqb_eq in Heq. now subst.
  - intros Hin. exists h. split; [assumption | apply String.eqb_refl].
Qed.

Lemma contains_existsb (V : Type) (d : dict V) (h : string) :
  contains h d = existsb (String.eqb h) (keys d).
Proof.
  unfold contains. destruct (get h d) eqn:E.
  - symmetry. apply existsb_eqb_In.
    destruct (in_dec string_dec h (keys d)) as [Hin|Hout]; auto.
    apply get_None_keys in Hout. congruence.
  - apply get_None_keys in E. symmetry. apply Bool.not_true_is_false.
    now rewrite existsb_eqb_In.
Qed.

Lemma keys_set_add (V : Type) (d : dict V) (h : string) (v : V) :
  keys (set h v d) = add_key (keys d) h.
Proof. rewrite keys_set, contains_existsb. reflexivity. Qed.

Lemma fold_add_key (l : list string) :
  forall ks,
    fold_left add_key l ks
    = ks ++ first_seen (filter (fun h => negb (existsb (String.eqb h) ks)) l).
Proof.
  induction l as [|x l IH]; intros ks; simpl.
  - now rewrite app_nil_r.
  - rewrite IH. unfold add_key.
    destruct (existsb (String.eqb x) ks) eqn:Hx; simpl; auto.
    rewrite <- app_assoc. simpl. do 2 f_equal.
    rewrite <- first_seen_filter. f_equal. clear IH Hx.
    induction l as [|y l IHl]; simpl; auto.
    rewrite existsb_app. simpl. rewrite orb_false_r, negb_orb.
    rewrite (String.eqb_sym y x).
    destruct (existsb (String.eqb y) ks); simpl; auto.
    destruct (String.eqb x y); simpl; now rewrite IHl.
Qed.

Lemma keys_hash_groups_fold (records : list FileInfo) :
  forall d, keys (fold_left group_file records d)
            = fold_left add_key (digests (filter usable records)) (keys d).
Proof.
  induction records as [|r records IH]; intros d; simpl; auto.
  destruct (usable r) eqn:Hu.
  - destruct (usable_fields _ Hu) as (h & p & Hh & Hp & Hne & _).
    rewrite IH, (group_file_usable d _ Hh Hp Hu), keys_set_add.
    simpl. rewrite Hh. now rewrite (proj2 (truthy_Some h) Hne).
  - rewrite group_file_skip by assumption. apply IH.
Qed.

Lemma keys_size_groups_fold (records : list FileInfo) :
  forall d, keys (fold_left count_file records d)
            = fold_left add_key (digests records) (keys d).
Proof.
  induction records as [|r records IH]; intros d; auto.
  cbn [fold_left digests]. rewrite IH.
  destruct (hash r) as [h|] eqn:Hh.
  - destruct (truthy (Some h)) eqn:Ht.
    + rewrite (count_file_hashed d r Hh) by (now rewrite Hh).
      now rewrite keys_set_add.
    + rewrite count_file_skip; [reflexivity | now rewrite Hh].
  - rewrite count_file_skip; [reflexivity | now rewrite Hh].
Qed.

Lemma filter_true (A : Type) (l : list A) : filter (fun _ => true) l = l.
Proof. induction l; simpl; congruence. Qed.

Lemma keys_hash_groups (records : list FileInfo) :
  keys (hash_groups_of records) = first_seen (digests (filter usable records)).
Proof.
  unfold hash_groups_of. rewrite keys_hash_groups_fold, fold_add_key. simpl.
  now rewrite filter_true.
Qed.

Lemma keys_size_groups (records : list FileInfo) :
  keys (size_groups_of records) = first_seen (digests records).
Proof.
  unfold size_groups_of. rewrite keys_size_groups_fold, fold_add_key. simpl.
  now rewrite filter_true.
Qed.
End FirstSeen.

(** ** [find_duplicates] and [calculate_wasted_space] in closed form *)

Section ClosedForms.
Import PyDict PyDictFacts.

Lemma values_hash_groups (records : list FileInfo) :
  values (hash_groups_of records)
  = map (fun h => paths_with h records) (keys (hash_groups_of records)).
Proof.
  destruct (hash_groups_inv records) as [Hnd Hget].
  unfold values. rewrite (@dict_as_keys _ [] _ Hnd) at 1.
  rewrite map_map. apply map_ext_in. intros h _. cbn [snd].
  unfold getitem. rewrite Hget. now destruct (paths_with h records).
Qed.

Lemma values_size_groups (records : list FileInfo) :
  map wasted_of (values (size_groups_of records))
  = map (digest_waste records) (keys (size_groups_of records)).
Proof.
  destruct (size_groups_inv records) as [Hnd Hget].
  unfold values. rewrite (@dict_as_keys _ {| count := 0; gsize := 0 |} _ Hnd) at 1.
  rewrite !map_map. apply map_ext_in. intros h Hin. cbn [snd].
  unfold getitem, digest_waste, wasted_of. rewrite Hget.
  destruct (occurrences h records) as [|n] eqn:Hocc.
  - exfalso. revert Hin. apply get_None_keys. now rewrite Hget, Hocc.
  - cbn [count gsize].
    destruct (Nat.ltb 1 (S n)) eqn:E.
    + apply Nat.ltb_lt in E.
      replace (1 <? Z.of_nat (S n))%Z with true
        by (symmetry; apply Z.ltb_lt; lia).
      reflexivity.
    + apply Nat.ltb_ge in E.
      replace (1 <? Z.of_nat (S n))%Z with false
        by (symmetry; apply Z.ltb_ge; lia).
      reflexivity.
Qed.

Lemma list_sum_filter_le (A : Type) (f : A -> nat) (p : A -> bool) (l : list A) :
  list_sum (map f (filter p l)) <= list_sum (map f l).
Proof.
  induction l as [|a l IH]; simpl; auto.
  destruct (p a); simpl; lia.
Qed.

Lemma list_sum_map_add (A : Type) (f g : A -> nat) (l : list A) :
  list_sum (map (fun a => f a + g a) l) = list_sum (map f l) + list_sum (map g l).
Proof. induction l as [|a l IH]; simpl; lia. Qed.

Lemma sum_paths_with_one (r : FileInfo) (hs : list string) :
  NoDup hs ->
  list_sum (map (fun h => List.length (paths_with h [r])) hs) <= 1.
Proof.
  intros Hnd. destruct (usable r) eqn:Hu.
  - destruct (usable_fields _ Hu) as (h0 & p & Hh & Hp & _ & _).
    rewrite (map_ext _ (fun h => if String.eqb h h0 then 1 else 0)).
    + induction Hnd as [|h hs Hout _ IH]; simpl; auto.
      destruct (String.eqb h h0) eqn:E; [|lia].
      apply String.eqb_eq in E. subst h0.
      assert (Hz : list_sum (map (fun h' => if String.eqb h' h then 1 else 0) hs) = 0).
      { clear IH. induction hs as [|h' hs IHhs]; simpl; auto.
        destruct (String.eqb h' h) eqn:E'.
        - apply String.eqb_eq in E'. subst h'. elim Hout. now left.
        - apply IHhs. intros Hin. apply Hout. now right. }
      lia.
    + intros h. rewrite (paths_with_usable h r Hh Hp Hu).
      now destruct (String.eqb h h0).
  - rewrite (map_ext _ (fun _ => 0)).
    + clear Hnd. induction hs; simpl; lia.
    + intros h. now rewrite paths_with_skip.
Qed.

Lemma sum_paths_with_le (records : list FileInfo) (hs : list string) :
  NoDup hs ->
  list_sum (map (fun h => List.length (paths_with h records)) hs)
  <= List.length records.
Proof.
  intros Hnd. induction records as [|r records IH].
  - clear Hnd. induction hs; simpl; auto.
  - rewrite (map_ext _ (fun h => List.length (paths_with h [r])
                                 + List.length (paths_with h records))).
    + rewrite list_sum_map_add. pose proof (sum_paths_with_one r Hnd).
      change (List.length (r :: records)) with (S (List.length records)). lia.
    + intros h. change (r :: records) with ([r] ++ records).
      now rewrite paths_with_app, length_app.
Qed.

Lemma two_per_group (A : Type) (gs : list (list A)) :
  Forall (fun g => 2 <= List.length g) gs ->
  2 * List.length gs <= list_sum (map (@List.length A) gs).
Proof. induction 1; simpl in *; lia. Qed.
End ClosedForms.

(** X1.  [find_duplicates] in closed form: take the digests of the records
    that are not skipped, in the order in which they are first seen, list
    for each one the paths that carry it, and keep the lists with more than
    one path.  In particular the groups come in the order of first
    appearance of their digests. *)
Theorem find_duplicates_first_seen_order (records : list FileInfo) :
  find_duplicates records
  = filter (fun paths => Nat.ltb 1 (List.length paths))
           (map (fun h => paths_with h records)
                (first_seen (digests (filter usable records)))).
Proof.
  unfold find_duplicates.
  now rewrite values_hash_groups, keys_hash_groups.
Qed.

(** X2.  Two records that are not skipped and carry the same digest end up
    in one returned group, whatever lies before, between and after them:
    the group of that digest is returned and holds both paths. *)
Theorem find_duplicates_groups_equal_digests
        (before between after : list FileInfo) (r1 r2 : FileInfo)
        (h p1 p2 : string) :
  hash r1 = Some h -> path r1 = Some p1 ->
  hash r2 = Some h -> path r2 = Some p2 ->
  h <> "" -> p1 <> "" -> p2 <> "" ->
  let records := before ++ r1 :: between ++ r2 :: after in
  In (paths_with h records) (find_duplicates records) /\
  In p1 (paths_with h records) /\ In p2 (paths_with h records).
Proof.
  intros Hh1 Hp1 Hh2 Hp2 Hh Hne1 Hne2 records.
  assert (Hu : forall r p, hash r = Some h -> path r = Some p -> p <> "" ->
                           paths_with h [r] = [p]).
  { intros r p Hhr Hpr Hp.
    assert (Hur : usable r = true).
    { unfold usable. rewrite Hhr, Hpr. apply andb_true_iff.
      split; now apply truthy_Some. }
    now rewrite (paths_with_usable h r Hhr Hpr Hur), String.eqb_refl. }
  assert (Hsplit : paths_with h records
                   = paths_with h before ++ [p1] ++ paths_with h between
                     ++ [p2] ++ paths_with h after).
  { unfold records.
    change (r1 :: between ++ r2 :: after)
      with ([r1] ++ between ++ [r2] ++ after).
    rewrite !paths_with_app.
    now rewrite (Hu r1 p1 Hh1 Hp1 Hne1), (Hu r2 p2 Hh2 Hp2 Hne2). }
  split; [|split].
  - apply In_find_duplicates. exists h. split; [reflexivity|].
    rewrite Hsplit, !length_app. simpl. lia.
  - rewrite Hsplit. apply in_or_app. right. now left.
  - rewrite Hsplit. apply in_or_app. right. apply in_cons.
    apply in_or_app. right. apply in_eq.
Qed.

Lemma find_duplicates_groups_equal_digests_witness :
  let records := [] ++ mkFileInfo (Some "/a/1.txt") (Some 100%Z) None (Some "H1")
                    :: [mkFileInfo (Some "/c/3.txt") (Some 200%Z) None (Some "H2")]
                    ++ mkFileInfo (Some "/b/2.txt") (Some 100%Z) None (Some "H1")
                    :: [] in
  In (paths_with "H1" records) (find_duplicates records) /\
  In "/a/1.txt" (paths_with "H1" records) /\
  In "/b/2.txt" (paths_with "H1" records).
Proof.
  apply (@find_duplicates_groups_equal_digests
           [] [mkFileInfo (Some "/c/3.txt") (Some 200%Z) None (Some "H2")] []
           _ _ "H1" "/a/1.txt" "/b/2.txt");
    (reflexivity || discriminate).
Defined.

(** X3.  [count_duplicates] never reports fewer than two files per group
    and never more files than there are records. *)
Theorem count_duplicates_bounds (records : list FileInfo) :
  2 * groups (count_duplicates records) <= files (count_duplicates records) /\
  files (count_duplicates records) <= List.length records.
Proof.
  unfold count_duplicates. cbn [groups files].
  rewrite fold_left_add_length. cbn [Nat.add]. split.
  - apply two_per_group. apply Forall_forall. intros g Hg.
    now apply In_find_duplicates in Hg as (h & _ & Hlen).
  - unfold find_duplicates.
    etransitivity; [apply list_sum_filter_le|].
    rewrite values_hash_groups, map_map.
    apply sum_paths_with_le. apply hash_groups_inv.
Qed.

(** X4.  [calculate_wasted_space] in closed form: the sum, over the
    non-empty digests in the order in which they are first seen, of one
    less than the number of records that carry the digest times the size
    of the first of them (0 when that record has no size); a record needs
    no path to be counted. *)
Theorem calculate_wasted_space_per_digest (records : list FileInfo) :
  calculate_wasted_space records
  = fold_right Z.add 0%Z
      (map (digest_waste records) (first_seen (digests records))).
Proof.
  rewrite calculate_wasted_space_sum.
  now rewrite values_size_groups, keys_size_groups.
Qed.

(** ** Wasted space on well-formed input *)

Section WastedFacts.
Import PyDict PyDictFacts.

Lemma first_size_nonneg (h : string) (records : list FileInfo) :
  Forall (fun r => (0 <= size_or_0 r)%Z) records ->
  (0 <= first_size h records)%Z.
Proof.
  induction 1 as [|r records Hr _ IH]; simpl; [lia|].
  destruct (hash r) as [h'|]; auto.
  destruct (String.eqb h h'); auto.
Qed.

Lemma sum_nonneg (l : list Z) :
  Forall (fun z => (0 <= z)%Z) l -> (0 <= fold_right Z.add 0 l)%Z.
Proof. induction 1; simpl; lia. Qed.
End WastedFacts.

(** X5.  When every record that has a digest has a path, the wasted space
    is the sum, over the groups that [find_duplicates] forms, of one less
    than the member count times the size of the first record with the
    group's digest. *)
Theorem wasted_space_is_sum_over_groups (records : list FileInfo) :
  Forall digest_has_path records ->
  calculate_wasted_space records = wasted_by_groups records.
Proof. apply calculate_wasted_space_by_groups. Qed.

Lemma wasted_space_is_sum_over_groups_witness :
  calculate_wasted_space scenario = wasted_by_groups scenario.
Proof.
  apply wasted_space_is_sum_over_groups.
  unfold scenario, digest_has_path.
  repeat (apply Forall_cons; [reflexivity|]). apply Forall_nil.
Defined.

(** X6.  When no non-empty digest occurs twice among the records, the
    wasted space is 0, whatever the sizes. *)
Theorem wasted_space_zero_without_repeats (records : list FileInfo) :
  NoDup (digests records) -> calculate_wasted_space records = 0%Z.
Proof. apply calculate_wasted_space_no_repeat. Qed.

Lemma wasted_space_zero_without_repeats_witness :
  calculate_wasted_space
    [ mkFileInfo (Some "/a/1.txt") (Some 100%Z) None (Some "H1");
      mkFileInfo (Some "/c/3.txt") (Some 200%Z) None (Some "H2");
      mkFileInfo (Some "/d/4.txt") (Some 300%Z) None None ] = 0%Z.
Proof.
  apply wasted_space_zero_without_repeats.
  simpl. repeat constructor; simpl; intuition discriminate.
Defined.

(** X7.  When no record has a negative size, the wasted space is not
    negative. *)
Theorem wasted_space_nonnegative (records : list FileInfo) :
  Forall (fun r => (0 <= size_or_0 r)%Z) records ->
  (0 <= calculate_wasted_space records)%Z.
Proof.
  intros Hsizes. rewrite calculate_wasted_space_sum, values_size_groups.
  apply sum_nonneg. apply Forall_forall. intros z Hz.
  apply in_map_iff in Hz as (h & <- & _). unfold digest_waste.
  pose proof (first_size_nonneg h Hsizes).
  destruct (Nat.ltb 1 (occurrences h records)) eqn:E; [|lia].
  apply Nat.ltb_lt in E. nia.
Qed.

Lemma wasted_space_nonnegative_witness :
  (0 <= calculate_wasted_space scenario)%Z.
Proof.
  apply wasted_space_nonnegative.
  unfold scenario, size_or_0.
  repeat (apply Forall_cons; [simpl; lia|]). apply Forall_nil.
Defined.

(** ** Wasted space as total size minus one copy per digest *)

Section TotalMinusUnique.
Import PyDict PyDictFacts.

Local Abbreviation zsum := (fold_right Z.add 0%Z).

Lemma zsum_map_add (A : Type) (f g : A -> Z) (l : list A) :
  zsum (map (fun a => (f a + g a)%Z) l) = (zsum (map f l) + zsum (map g l))%Z.
Proof. induction l as [|a l IH]; simpl; lia. Qed.

Lemma zsum_map_ext_in (A : Type) (f g : A -> Z) (l : list A) :
  (forall a, In a l -> f a = g a) -> zsum (map f l) = zsum (map g l).
Proof. intros H. f_equal. now apply map_ext_in. Qed.

Lemma zsum_indicator (s : string -> Z) (h0 : string) (hs : list string) :
  NoDup hs -> In h0 hs ->
  zsum (map (fun h => if String.eqb h h0 then s h else 0%Z) hs) = s h0.
Proof.
  induction 1 as [|h hs Hout Hnd IH]; intros Hin; [contradiction|].
  simpl. destruct (String.eqb h h0) eqn:E.
  - apply String.eqb_eq in E. subst h0.
    rewrite (@zsum_map_ext_in _ _ (fun _ => 0%Z)).
    + clear. induction hs; simpl; lia.
    + intros a Ha. destruct (String.eqb a h) eqn:E'; auto.
      apply String.eqb_eq in E'. now subst a.
  - destruct Hin as [->|Hin]; [now rewrite String.eqb_refl in E | auto].
Qed.

Lemma zsum_no_digest (l : list FileInfo) (r : FileInfo) (s : string -> Z)
      (hs : list string) :
  truthy (hash r) = false ->
  zsum (map (fun h => (Z.of_nat (occurrences h (r :: l)) * s h)%Z) hs)
  = zsum (map (fun h => (Z.of_nat (occurrences h l) * s h)%Z) hs).
Proof.
  intros Ht. apply zsum_map_ext_in. intros h _.
  change (r :: l) with ([r] ++ l). rewrite occurrences_app, occurrences_one, Ht.
  now destruct (hash r).
Qed.

(** Summing a quantity per digest, weighted by the number of records that
    carry the digest, is summing it per record. *)
Lemma zsum_by_digest (s : string -> Z) (hs : list string) (l : list FileInfo) :
  NoDup hs -> (forall h, In h (digests l) -> In h hs) ->
  zsum (map (fun h => (Z.of_nat (occurrences h l) * s h)%Z) hs)
  = zsum (map s (digests l)).
Proof.
  intros Hnd. induction l as [|r l IH]; intros Hall.
  - simpl. clear. induction hs; simpl; auto.
  - destruct (hash r) as [h0|] eqn:Hh;
      [destruct (truthy (Some h0)) eqn:Ht|].
    + assert (Hd : digests (r :: l) = h0 :: digests l)
        by (simpl; now rewrite Hh, Ht).
      rewrite Hd in *. simpl map. simpl fold_right.
      rewrite <- IH by (intros h Hin; apply Hall; now right).
      rewrite <- (@zsum_indicator s h0 hs Hnd (Hall h0 (or_introl eq_refl))).
      rewrite <- zsum_map_add. apply zsum_map_ext_in. intros h _.
      change (r :: l) with ([r] ++ l).
      rewrite occurrences_app, occurrences_one, Hh, Ht. simpl andb.
      destruct (String.eqb h h0); lia.
    + assert (Hd : digests (r :: l) = digests l)
        by (simpl; now rewrite Hh, Ht).
      rewrite Hd in *. rewrite zsum_no_digest by (now rewrite Hh). auto.
    + assert (Hd : digests (r :: l) = digests l) by (simpl; now rewrite Hh).
      rewrite Hd in *. rewrite zsum_no_digest by (now rewrite Hh). auto.
Qed.

Lemma zsum_hashed_sizes (s : string -> Z) (l : list FileInfo) :
  Forall (fun r => forall h, hash r = Some h -> h <> "" -> size_or_0 r = s h) l ->
  zsum (map s (digests l)) = zsum (map hashed_size l).
Proof.
  induction 1 as [|r l Hr _ IH]; auto.
  simpl. unfold hashed_size at 1. destruct (hash r) as [h|] eqn:Hh.
  - destruct (truthy (Some h)) eqn:Ht.
    + simpl. rewrite IH, (Hr h eq_refl); [reflexivity | now apply truthy_Some].
    + rewrite IH. lia.
  - simpl. rewrite IH. lia.
Qed.

Lemma occurrences_of_key (records : list FileInfo) (h : string) :
  In h (keys (size_groups_of records)) <-> 0 < occurrences h records.
Proof.
  destruct (size_groups_inv records) as [_ Hget]. specialize (Hget h).
  split.
  - intros Hin. destruct (occurrences h records); [|lia].
    exfalso. revert Hin. now apply get_None_keys.
  - intros Hocc.
    destruct (in_dec string_dec h (keys (size_groups_of records))); auto.
    apply get_None_keys in n. rewrite n in Hget.
    destruct (occurrences h records); [lia | discriminate].
Qed.
End TotalMinusUnique.

(** X8.  When the records that carry one digest all have the size of the
    first of them, the wasted space is the total size of the records that
    have a digest minus the size of one record per digest: what is left
    after one copy of each content is kept. *)
Theorem wasted_space_total_minus_unique (records : list FileInfo) :
  Forall (fun r => forall h, hash r = Some h -> h <> "" ->
                             size_or_0 r = first_size h records) records ->
  calculate_wasted_space records
  = (fold_right Z.add 0 (map hashed_size records)
     - fold_right Z.add 0
         (map (fun h => first_size h records) (first_seen (digests records))))%Z.
Proof.
  intros Hsame.
  rewrite <- (zsum_hashed_sizes (fun h => first_size h records) Hsame).
  rewrite <- keys_size_groups.
  rewrite <- (@zsum_by_digest (fun h => first_size h records)
                              (PyDict.keys (size_groups_of records)) records).
  - rewrite calculate_wasted_space_sum, values_size_groups.
    match goal with
    | |- ?a = (?b - ?c)%Z => enough (a + c = b)%Z by lia
    end.
    rewrite <- zsum_map_add. apply zsum_map_ext_in. intros h Hin.
    apply occurrences_of_key in Hin. unfold digest_waste.
    destruct (Nat.ltb 1 (occurrences h records)) eqn:E.
    + lia.
    + apply Nat.ltb_ge in E.
      replace (occurrences h records) with 1 by lia. lia.
  - apply size_groups_inv.
  - intros h Hin. apply occurrences_of_key. unfold occurrences.
    now apply (count_occ_In string_dec).
Qed.

Lemma wasted_space_total_minus_unique_witness :
  calculate_wasted_space scenario
  = (fold_right Z.add 0 (map hashed_size scenario)
     - fold_right Z.add 0
         (map (fun h => first_size h scenario) (first_seen (digests scenario))))%Z.
Proof.
  apply wasted_space_total_minus_unique.
  unfold scenario.
  repeat (apply Forall_cons;
          [intros h Hh _; simpl in Hh; injection Hh as <-; reflexivity|]).
  apply Forall_nil.
Defined.

(** ** What a scan finds *)

Section Completeness.
Variable cwd : list string.

Lemma records_of_dir (path : Path.t) (entries : list (string * Node)) :
  records_of cwd path (NDir (Some entries))
  = flat_map (fun entry =>
                item_records cwd (records_of cwd)
                             (Path.joinpath path (fst entry)) (snd entry))
             entries.
Proof. reflexivity. Qed.

(** A regular file of the tree that [stat] and the hashing loop can read
    has its record among the records of the tree. *)
Lemma file_at_recorded path target q d n :
  file_at path target q d ->
  st_size d = Some n -> open_ok d = true -> read_fails d = false ->
  In (record_of cwd q d n) (item_records cwd (records_of cwd) path target).
Proof.
  intros Hat Hsize Hopen Hread.
  induction Hat as [path d | path entries entry child q d Hin Hat IH].
  - cbn [item_records]. rewrite collected_file, Hsize, Hopen, Hread. now left.
  - cbn [item_records]. rewrite records_of_dir. apply in_flat_map.
    exists (entry, child). split; [assumption|]. cbn [fst snd]. auto.
Qed.
End Completeness.



(** X10.  A scanner can be used again: what it recorded before does not
    enter the next scan.  After a scan that returns, [scanned_files] is the
    returned list, [get_file_count] is its length, and the outcome is the
    one of a fresh scanner. *)
Theorem scan_directory_starts_afresh
        (S : Type) (progress_callback : option (Sink S)) (cwd : list string)
        (directory_path : string) (target : option Node)
        (earlier : list FileInfo) (s : S) :
  scan_directory progress_callback cwd directory_path target (mkScanner earlier s)
  = scan_directory progress_callback cwd directory_path target (mkScanner [] s) /\
  forall files st',
    scan_directory progress_callback cwd directory_path target (mkScanner earlier s)
    = (Ok files, st') ->
    scanned_files st' = files /\ get_file_count st' = List.length files.
Proof.
  split; [reflexivity|].
  intros files st' Hscan.
  destruct target as [[d|listing| |]|];
    try (rewrite scan_directory_not_a_directory in Hscan by reflexivity;
         discriminate);
    try discriminate.
  rewrite scan_directory_run in Hscan. injection Hscan as <- <-.
  split; reflexivity.
Qed.

Lemma scan_directory_starts_afresh_witness :
  scanned_files
    (snd (scan_directory (S := unit) None ["home"] "docs" (Some sample_tree)
            (mkScanner [mkFileInfo (Some "/old") (Some 1%Z) (Some "old") (Some "0f")] tt)))
  = [ mkFileInfo (Some "/home/docs/notes.txt") (Some 3%Z) (Some "notes.txt")
                 (Some "ba7816bf8f01cfea414140de5dae2223b00361a396177a9cb410ff61f20015ad") ]
  /\
  get_file_count
    (snd (scan_directory (S := unit) None ["home"] "docs" (Some sample_tree)
            (mkScanner [mkFileInfo (Some "/old") (Some 1%Z) (Some "old") (Some "0f")] tt)))
  = 1.
Proof.
  apply (proj2 (@scan_directory_starts_afresh unit None ["home"] "docs"
                  (Some sample_tree)
                  [mkFileInfo (Some "/old") (Some 1%Z) (Some "old") (Some "0f")] tt)).
  vm_compute. reflexivity.
Defined.

(** X11.  An entry that is neither a directory nor a regular file is
    passed over in silence: with it in a listing, the scan returns the same
    records and leaves the callback in the same state, having told it
    nothing about the entry. *)
Theorem scan_directory_ignores_other_entries
        (S : Type) (progress_callback : option (Sink S)) (cwd : list string)
        (directory_path : string) (before after : list (string * Node))
        (entry : string) (st : Scanner S) :
  scan_directory progress_callback cwd directory_path
                 (Some (NDir (Some (before ++ (entry, NOther) :: after)))) st
  = scan_directory progress_callback cwd directory_path
                   (Some (NDir (Some (before ++ after)))) st.
Proof.
  rewrite !scan_directory_run.
  assert (Hrec : forall path,
             records_of cwd path (NDir (Some (before ++ (entry, NOther) :: after)))
             = records_of cwd path (NDir (Some (before ++ after)))).
  { intros path. rewrite !records_of_dir, !flat_map_app. reflexivity. }
  rewrite Hrec. do 3 f_equal.
  rewrite !events_of_dir, !entries_events_app.
  cbn [entries_events item_events item_records fst snd app].
  now rewrite app_nil_r.
Qed.


(** X14.  With a callback, a scan of a directory begins with
    ["Starting scan..."], sent while nothing is recorded, and ends with
    ["Scan complete! Found N files."], where [N] is the length of the
    returned list. *)
Theorem scan_directory_brackets_progress
        (cwd : list string) (directory_path : string)
        (listing : option (list (string * Node))) (log : list (nat * string)) :
  exists files middle,
    fst (scan_directory (Some logger) cwd directory_path (Some (NDir listing))
                        (mkScanner [] log)) = Ok files /\
    sink_state (snd (scan_directory (Some logger) cwd directory_path
                                    (Some (NDir listing)) (mkScanner [] log)))
    = log ++ (0, "Starting scan...") :: middle
          ++ [ (List.length files,
                ("Scan complete! Found " ++ decimal (List.length files)
                   ++ " files.")%string) ].
Proof.
  rewrite scan_directory_run. cbn [fst snd sink_state].
  eexists. eexists. split; [reflexivity|].
  rewrite deliver_logger. cbn [map fst snd List.length]. rewrite map_app.
  reflexivity.
Qed.

(** ** Milestones that are reported *)

Section Milestones.
Variable cwd : list string.

Lemma collected_length (item : Path.t) (target : Node) :
  List.length (collected cwd item target) <= 1.
Proof.
  unfold collected. destruct (_collect_file_info cwd item target) as [[r|]|e];
    simpl; lia.
Qed.

Lemma item_reports_milestones (item : Path.t) (target : Node) files m :
  (forall l, target = NDir l -> reports_milestones cwd target) ->
  List.length files < m ->
  m <= List.length files
       + List.length (item_records cwd (records_of cwd) item target) ->
  Nat.modulo m 100 = 0 ->
  exists fs, List.length fs = m /\
             In (fs, milestone m)
                (item_events cwd (events_of cwd) item target files).
Proof.
  intros Hdir Hlt Hle Hmod. destruct target as [d|l| |];
    cbn [item_records item_events] in *.
  - pose proof (collected_length item (NFile d)) as Hone.
    assert (Hm : List.length (files ++ collected cwd item (NFile d)) = m)
      by (rewrite length_app; lia).
    exists (files ++ collected cwd item (NFile d)). split; [assumption|].
    rewrite Hm, Hmod. cbn [Nat.eqb]. right. left. reflexivity.
  - exact (Hdir l eq_refl item files m Hlt Hle Hmod).
  - simpl in Hle. lia.
  - simpl in Hle. lia.
Qed.

Lemma entries_report_milestones (path : Path.t) (entries : list (string * Node)) :
  Forall (fun entry => reports_milestones cwd (snd entry)) entries ->
  forall files m,
    List.length files < m ->
    m <= List.length files
         + List.length (records_of cwd path (NDir (Some entries))) ->
    Nat.modulo m 100 = 0 ->
    exists fs, List.length fs = m /\
               In (fs, milestone m) (entries_events cwd path entries files).
Proof.
  induction 1 as [|entry entries Hentry _ IH]; intros files m Hlt Hle Hmod.
  - simpl in Hle. lia.
  - rewrite records_of_dir in Hle. cbn [flat_map] in Hle.
    rewrite length_app in Hle. cbn [entries_events].
    set (item := Path.joinpath path (fst entry)) in *.
    set (mine := item_records cwd (records_of cwd) item (snd entry)) in *.
    destruct (Nat.le_gt_cases m (List.length files + List.length mine))
      as [Hhere|Hlater].
    + destruct (@item_reports_milestones item (snd entry) files m)
        as (fs & Hfs & Hin); auto.
      exists fs. split; [assumption|]. apply in_or_app. now left.
    + destruct (IH (files ++ mine) m) as (fs & Hfs & Hin).
      * rewrite length_app. lia.
      * rewrite length_app, records_of_dir. lia.
      * assumption.
      * exists fs. split; [assumption|]. apply in_or_app. now right.
Qed.

Lemma tree_reports_milestones (target : Node) : reports_milestones cwd target.
Proof.
  induction target as [d| |entries IH| |] using Node_tree_ind;
    intros path files m Hlt Hle Hmod;
    try (simpl in Hle; lia).
  rewrite events_of_dir. now apply entries_report_milestones.
Qed.
End Milestones.

(** X15.  No milestone is left out: when a scan with a callback returns
    [files], the callback was told ["Files found: m"], at a moment when
    [m] files were recorded, for every positive multiple [m] of 100 up to
    the number of files. *)
Theorem scan_directory_reports_each_hundred
        (cwd : list string) (directory_path : string)
        (listing : option (list (string * Node))) (log : list (nat * string))
        (files : list FileInfo) (m : nat) :
  fst (scan_directory (Some logger) cwd directory_path (Some (NDir listing))
                      (mkScanner [] log)) = Ok files ->
  0 < m -> m <= List.length files -> Nat.modulo m 100 = 0 ->
  In (m, milestone m)
     (sink_state (snd (scan_directory (Some logger) cwd directory_path
                                      (Some (NDir listing)) (mkScanner [] log)))).
Proof.
  intros Hscan Hpos Hle Hmod.
  rewrite scan_directory_result in Hscan. injection Hscan as <-.
  destruct (@tree_reports_milestones cwd (NDir listing)
              (Path.of_string directory_path) [] m)
    as (fs & Hfs & Hin); auto.
  rewrite <- Hfs at 1. now apply logger_hears.
Qed.

Lemma scan_directory_reports_each_hundred_witness :
  In (100, milestone 100)
     (sink_state (snd (scan_directory (Some logger) ["home"] "docs"
                                      (Some (numbered_files 100))
                                      (mkScanner [] [])))).
Proof.
  apply (@scan_directory_reports_each_hundred ["home"] "docs"
           (Some (map (fun i => (decimal i, NFile (regular_file ""))) (seq 0 100)))
           []
           (records_of ["home"] (Path.of_string "docs") (numbered_files 100))
           100).
  - now rewrite scan_directory_result.
  - lia.
  - vm_compute. apply le_n.
  - reflexivity.
Defined.

(** ** From the scanner to the analyzer *)

Section Pipeline.
Variable cwd : list string.

Lemma prefix_nonempty (p : string) : String.prefix "/" p = true -> p <> "".
Proof. intros H ->. discriminate. Qed.

Lemma record_of_usable (q : Path.t) (d : FileData) (n : N) :
  usable (record_of cwd q d n) = true.
Proof.
  unfold usable, record_of. cbn [hash path]. apply andb_true_iff. split.
  - apply truthy_Some, hexdigest_of_nonempty.
  - apply truthy_Some, prefix_nonempty, str_absolute.
Qed.

Lemma records_of_usable (path : Path.t) (target : Node) :
  Forall (fun r => usable r = true) (records_of cwd path target).
Proof.
  apply Forall_forall. intros r Hin.
  destruct (In_records_of _ _ _ _ Hin) as (q & d & n & _ & _ & _ & _ & ->).
  apply record_of_usable.
Qed.

Lemma In_paths_with (records : list FileInfo) (r : FileInfo) (h p : string) :
  In r records -> usable r = true -> hash r = Some h -> path r = Some p ->
  In p (paths_with h records).
Proof.
  intros Hin Hu Hh Hp. apply in_split in Hin as (l1 & l2 & ->).
  change (r :: l2) with ([r] ++ l2). rewrite !paths_with_app.
  rewrite (paths_with_usable h r Hh Hp Hu), String.eqb_refl.
  apply in_or_app. right. now left.
Qed.

Lemma filter_all (A : Type) (f : A -> bool) (l : list A) :
  Forall (fun a => f a = true) l -> filter f l = l.
Proof.
  induction 1 as [|a l Ha _ IH]; simpl; auto. now rewrite Ha, IH.
Qed.

Lemma two_members (A : Type) (a b : A) (l : list A) :
  In a l -> In b l -> a <> b -> 2 <= List.length l.
Proof.
  intros Ha Hb Hne. destruct l as [|x [|y l]].
  - contradiction.
  - simpl in Ha, Hb. destruct Ha as [->|[]], Hb as [->|[]]. congruence.
  - simpl. lia.
Qed.
End Pipeline.

(** X16.  The analyzer skips none of the records that a scan returns:
    each has a digest and a path.  On them the wasted space is the sum over
    the groups of [find_duplicates], and [find_duplicates] is not changed by
    leaving out the records it would skip, there being none. *)
Theorem scan_directory_feeds_analyzer
        (S : Type) (progress_callback : option (Sink S)) (cwd : list string)
        (directory_path : string) (target : option Node)
        (st st' : Scanner S) (files : list FileInfo) :
  scan_directory progress_callback cwd directory_path target st = (Ok files, st') ->
  Forall (fun r => usable r = true) files /\
  filter usable files = files /\
  calculate_wasted_space files = wasted_by_groups files.
Proof.
  intros Hscan.
  pose proof (scan_directory_result progress_callback cwd directory_path target st)
    as Hres.
  rewrite Hscan in Hres. cbn [fst] in Hres.
  destruct target as [[d|listing| |]|]; try discriminate.
  injection Hres as ->.
  pose proof (records_of_usable cwd (Path.of_string directory_path) (NDir listing))
    as Hu.
  split; [exact Hu|]. split.
  - now apply filter_all.
  - apply calculate_wasted_space_by_groups.
    eapply Forall_impl; [|exact Hu].
    intros r Hr _. unfold usable in Hr. now apply andb_true_iff in Hr.
Qed.

Lemma scan_directory_feeds_analyzer_witness :
  Forall (fun r => usable r = true)
         (records_of ["home"] (Path.of_string "docs") twin_tree) /\
  filter usable (records_of ["home"] (Path.of_string "docs") twin_tree)
  = records_of ["home"] (Path.of_string "docs") twin_tree /\
  calculate_wasted_space (records_of ["home"] (Path.of_string "docs") twin_tree)
  = wasted_by_groups (records_of ["home"] (Path.of_string "docs") twin_tree).
Proof.
  apply (@scan_directory_feeds_analyzer unit None ["home"] "docs" (Some twin_tree)
           (mkScanner [] tt)
           (mkScanner (records_of ["home"] (Path.of_string "docs") twin_tree) tt)).
  vm_compute. reflexivity.
Defined.



(** ** The size of the chunks *)

(** X18.  The digest does not depend on how the content is cut: for every
    positive chunk size, the loop of [generate_file_hash] on a file that
    reads without error ends with exactly the bytes of the content fed to
    the accumulator, so that [hexdigest] is the digest of the content. *)
Theorem hashing_loop_any_chunk_size (n : N) (bytes : list byte) :
  (0 < n)%N ->
  update_chunks (Datatypes.S (List.length bytes)) n (mkHandle bytes 0 None)
                hashlib.sha256
  = Some (Ok (hashlib.mk_sha256 bytes)) /\
  hashlib.hexdigest (hashlib.mk_sha256 bytes) = SHA256.hexdigest_of bytes.
Proof.
  intros Hn. split; [|reflexivity].
  rewrite (update_chunks_spec Hn) by lia. reflexivity.
Qed.

Lemma hashing_loop_any_chunk_size_witness :
  update_chunks 4 2 (mkHandle (list_byte_of_string "abc") 0 None) hashlib.sha256
  = Some (Ok (hashlib.mk_sha256 (list_byte_of_string "abc"))) /\
  hashlib.hexdigest (hashlib.mk_sha256 (list_byte_of_string "abc"))
  = SHA256.hexdigest_of (list_byte_of_string "abc").
Proof.
  apply (@hashing_loop_any_chunk_size 2 (list_byte_of_string "abc")).
  reflexivity.
Defined.

(** ** The web interface *)

Section WebInterface.
Import ui_app.

Lemma deliver_ui_scanning (events : list Event) :
  forall status,
    is_scanning (deliver (Some progress_callback) events status)
    = is_scanning status.
Proof.
  unfold deliver. induction events as [|e events IH]; intros status; simpl; auto.
  now rewrite IH.
Qed.

(** After its last call the callback has stored the last message and the
    number of files recorded at that moment. *)
Lemma deliver_ui_last (events : list Event) (scanned : list FileInfo)
      (message : string) (status : ScanStatus) :
  deliver (Some progress_callback) (events ++ [(scanned, message)]) status
  = mkStatus (is_scanning status) message (List.length scanned).
Proof.
  rewrite deliver_app.
  pose proof (deliver_ui_scanning events status) as Hsame.
  set (status' := deliver (Some progress_callback) events status) in *.
  unfold deliver. cbn [fold_left fst snd]. unfold progress_callback.
  now rewrite Hsame.
Qed.

Lemma scan_directory_ui (cwd : list string) (directory : string)
      (listing : option (list (string * Node))) (status : ScanStatus) :
  let scanned := records_of cwd (Path.of_string directory) (NDir listing) in
  scan_directory (Some progress_callback) cwd directory (Some (NDir listing))
                 (mkScanner [] status)
  = (Ok scanned,
     mkScanner scanned
       (mkStatus (is_scanning status)
                 ("Scan complete! Found " ++ decimal (List.length scanned) ++ " files.")
                 (List.length scanned))).
Proof.
  intros scanned. rewrite scan_directory_run. fold scanned.
  cbn [sink_state]. do 2 f_equal.
  rewrite app_comm_cons. apply deliver_ui_last.
Qed.
End WebInterface.

(** * The scanner with a callback that may raise *)

Section GeneralRun.
Variable S : Type.
Variable progress_callback : option (General.Callback S).
Variable cwd : list string.
Hypothesis callback_returns : well_behaved progress_callback.

Local Abbreviation sink := (calmed progress_callback).

Lemma general_report_run (message : string) (st : Scanner S) :
  General.report progress_callback message st
  = ran sink st [] [(scanned_files st, message)].
Proof.
  unfold General.report, ran, deliver, calmed. rewrite app_nil_r.
  destruct progress_callback as [callback|]; [|now destruct st].
  cbn [fold_left fst snd]. unfold calm.
  pose proof (callback_returns (scanned_files st) message (sink_state st)) as Hok.
  destruct (callback (scanned_files st) message (sink_state st)) as [outcome s].
  cbn [fst snd] in *. subst outcome. reflexivity.
Qed.

Lemma general_has_callback :
  General.has_callback progress_callback = has_callback sink.
Proof. unfold calmed. now destruct progress_callback. Qed.

Lemma general_scan_item_run (self : Path.t -> Node -> M S unit)
      (item : Path.t) (target : Node) (st : Scanner S) :
  (forall l, target = NDir l ->
             self item target st
             = ran sink st (records_of cwd item target)
                   (events_of cwd item target (scanned_files st))) ->
  General.scan_item progress_callback cwd self item target st
  = ran sink st (item_records cwd (records_of cwd) item target)
        (item_events cwd (events_of cwd) item target (scanned_files st)).
Proof.
  intros Hself. destruct target as [d|l| |].
  - unfold General.scan_item, try_except_os, bind, lift.
    cbn [Path.is_dir Path.is_file item_records item_events].
    rewrite general_report_run. cbn [ran fst snd].
    unfold collected.
    destruct (collect_file_info_returns cwd item (NFile d)) as [r Hr].
    rewrite Hr. unfold get_scanned_files. rewrite general_has_callback.
    destruct r as [file_info|].
    + unfold append_scanned. cbn [scanned_files sink_state].
      rewrite app_nil_r.
      destruct (Nat.eqb (Nat.modulo (List.length (scanned_files st ++ [file_info])) 100) 0).
      * destruct (has_callback sink) eqn:Hcb; cbn [andb].
        -- rewrite general_report_run. unfold ran. cbn [scanned_files sink_state fst snd].
           rewrite app_nil_r. f_equal. f_equal.
           unfold deliver. destruct sink; [reflexivity | discriminate].
        -- unfold ret, ran, deliver. cbn [scanned_files sink_state].
           destruct sink; [discriminate | reflexivity].
      * rewrite andb_false_r. reflexivity.
    + unfold ret. cbn [scanned_files sink_state].
      rewrite !app_nil_r.
      destruct (Nat.eqb (Nat.modulo (List.length (scanned_files st)) 100) 0).
      * destruct (has_callback sink) eqn:Hcb; cbn [andb].
        -- rewrite general_report_run. unfold ran. cbn [scanned_files sink_state fst snd].
           rewrite !app_nil_r. f_equal. f_equal.
           unfold deliver. destruct sink; [reflexivity | discriminate].
        -- unfold ran, deliver. cbn [scanned_files sink_state].
           rewrite app_nil_r. destruct sink; [discriminate | reflexivity].
      * rewrite andb_false_r. unfold ran. cbn [scanned_files sink_state].
        now rewrite app_nil_r.
  - unfold General.scan_item, try_except_os, bind, lift.
    cbn [Path.is_dir item_records item_events].
    now rewrite (Hself l eq_refl).
  - unfold General.scan_item, try_except_os, bind, lift, ret, ran, deliver.
    cbn [Path.is_dir Path.is_file item_records item_events].
    rewrite app_nil_r. destruct sink; now destruct st.
  - unfold General.scan_item, try_except_os, bind, lift.
    cbn [Path.is_dir item_records item_events].
    apply general_report_run.
Qed.

Lemma general_for_each_run (path : Path.t) (entries : list (string * Node)) :
  Forall (fun entry =>
            forall item st,
              General._scan_recursive progress_callback cwd item (snd entry) st
              = ran sink st (records_of cwd item (snd entry))
                    (events_of cwd item (snd entry) (scanned_files st)))
         entries ->
  forall st,
    for_each entries
             (fun entry =>
                General.scan_item progress_callback cwd
                  (General._scan_recursive progress_callback cwd)
                  (Path.joinpath path (fst entry)) (snd entry))
             st
    = ran sink st (records_of cwd path (NDir (Some entries)))
          (entries_events cwd path entries (scanned_files st)).
Proof.
  induction 1 as [|entry entries Hentry _ IH]; intros st.
  - unfold ran, deliver. cbn. rewrite app_nil_r.
    destruct sink; now destruct st.
  - cbn [for_each]. unfold bind at 1.
    rewrite general_scan_item_run by (intros; apply Hentry).
    unfold ran at 1. change (for_each entries ?b) with (for_each entries b) in IH.
    unfold for_each in IH. rewrite IH.
    cbn [records_of flat_map entries_events scanned_files sink_state].
    unfold ran. cbn [scanned_files sink_state].
    now rewrite deliver_app, app_assoc.
Qed.

(** With a callback that returns, the general scanner does what the
    scanner above does. *)
Lemma general_scan_recursive_run (target : Node) :
  forall path st,
    General._scan_recursive progress_callback cwd path target st
    = ran sink st (records_of cwd path target)
          (events_of cwd path target (scanned_files st)).
Proof.
  induction target as [d| |entries IH| |] using Node_tree_ind; intros path st.
  - apply general_report_run.
  - apply general_report_run.
  - rewrite events_of_dir.
    cbn [General._scan_recursive]. unfold try_except_os.
    now rewrite (general_for_each_run path IH).
  - apply general_report_run.
  - apply general_report_run.
Qed.

Lemma general_scan_directory_run (directory_path : string)
      (listing : option (list (string * Node))) (st : Scanner S) :
  General.scan_directory progress_callback cwd directory_path
                         (Some (NDir listing)) st
  = scan_directory sink cwd directory_path (Some (NDir listing)) st.
Proof.
  rewrite scan_directory_run.
  unfold General.scan_directory, bind, lift, set_scanned_files.
  cbn [Path.exists_ Path.is_dir negb].
  rewrite general_report_run. cbn [ran fst snd scanned_files sink_state app].
  rewrite general_scan_recursive_run.
  cbn [ran fst snd scanned_files sink_state app].
  unfold get_scanned_files. cbn [scanned_files sink_state].
  rewrite general_report_run. cbn [ran fst snd scanned_files sink_state app].
  rewrite app_nil_r.
  set (files := records_of cwd (Path.of_string directory_path) (NDir listing)).
  change (([], "Starting scan...")
            :: events_of cwd (Path.of_string directory_path) (NDir listing) []
            ++ [(files, ("Scan complete! Found "
                           ++ decimal (List.length files) ++ " files.")%string)])
    with ([(@nil FileInfo, "Starting scan...")]
            ++ events_of cwd (Path.of_string directory_path) (NDir listing) []
            ++ [(files, ("Scan complete! Found "
                           ++ decimal (List.length files) ++ " files.")%string)]).
  now rewrite !deliver_app.
Qed.
End GeneralRun.

(** When the root is not a directory no callback is called, so the two
    scanners agree whatever the callback does. *)
Lemma general_scan_directory_bad_root (S : Type)
      (progress_callback : option (General.Callback S)) (cwd : list string)
      (directory_path : string) (target : option Node) (st : Scanner S) :
  (forall listing, target <> Some (NDir listing)) ->
  General.scan_directory progress_callback cwd directory_path target st
  = scan_directory (calmed progress_callback) cwd directory_path target st.
Proof.
  intros Hroot. destruct target as [[d|listing| |]|]; try reflexivity.
  now elim (Hroot listing).
Qed.

(** What the general scanner returns when the callback returns. *)
Lemma general_scan_directory_result (S : Type)
      (progress_callback : option (General.Callback S)) (cwd : list string)
      (directory_path : string) (target : option Node) (st : Scanner S) :
  well_behaved progress_callback ->
  fst (General.scan_directory progress_callback cwd directory_path target st)
  = match target with
    | None =>
        Raise (mkExc ValueError ("Directory does not exist: " ++ directory_path))
    | Some NDenied => Raise permission_denied
    | Some (NDir listing) =>
        Ok (records_of cwd (Path.of_string directory_path) (NDir listing))
    | Some _ =>
        Raise (mkExc ValueError ("Path is not a directory: " ++ directory_path))
    end.
Proof.
  intros Hwell.
  rewrite <- (scan_directory_result (calmed progress_callback) cwd
                                   directory_path target st).
  destruct target as [[d|listing| |]|]; try reflexivity.
  now rewrite general_scan_directory_run.
Qed.

(** ** The callback and the outcome *)




(** ** Entries that cannot be used, and what the callback hears of them *)

Section SkipNotices.
Variable cwd : list string.

Lemma general_logger_log (directory_path : string)
      (listing : option (list (string * Node))) (log : list (nat * string)) :
  General.scan_directory (Some (polite logger)) cwd directory_path
                         (Some (NDir listing)) (mkScanner [] log)
  = scan_directory (Some logger) cwd directory_path (Some (NDir listing))
                   (mkScanner [] log).
Proof.
  rewrite general_scan_directory_run; [reflexivity|].
  intros files message s. reflexivity.
Qed.

Lemma skip_notices_app (l1 l2 : list (nat * string)) :
  skip_notices (l1 ++ l2) = skip_notices l1 ++ skip_notices l2.
Proof. apply filter_app. Qed.

Lemma skip_notices_cons (e : nat * string) (l : list (nat * string)) :
  skip_notices (e :: l)
  = (if String.prefix "Skipped" (snd e) then [e] else []) ++ skip_notices l.
Proof.
  unfold skip_notices. cbn [filter].
  now destruct (String.prefix "Skipped" (snd e)).
Qed.

(** What the callback hears of a regular file is never a skip. *)
Lemma skip_notices_file (item : Path.t) (d : FileData) (files : list FileInfo) :
  skip_notices (map (fun e : Event => (List.length (fst e), snd e))
                    (item_events cwd (events_of cwd) item (NFile d) files))
  = [].
Proof.
  cbn [item_events].
  destruct (Nat.eqb (Nat.modulo (List.length (files ++ collected cwd item (NFile d))) 100) 0);
    reflexivity.
Qed.

Lemma skip_notices_without_file (directory_path : string)
      (before after : list (string * Node)) (entry : string) (d : FileData)
      (log : list (nat * string)) :
  inaccessible (NFile d) ->
  skip_notices
    (sink_state (snd (scan_directory (Some logger) cwd directory_path
                        (Some (NDir (Some (before ++ (entry, NFile d) :: after))))
                        (mkScanner [] log))))
  = skip_notices
      (sink_state (snd (scan_directory (Some logger) cwd directory_path
                          (Some (NDir (Some (before ++ after))))
                          (mkScanner [] log)))).
Proof.
  intros Hbad. rewrite !scan_directory_run. cbn [snd sink_state].
  rewrite !deliver_logger, (records_of_without cwd _ before entry after Hbad).
  rewrite !skip_notices_app. f_equal. cbn [map].
  rewrite !(skip_notices_cons (0, "Starting scan...")). f_equal.
  rewrite !map_app, !skip_notices_app. f_equal.
  rewrite !events_of_dir, !entries_events_app, !map_app, !skip_notices_app.
  f_equal. cbn [entries_events fst snd].
  rewrite (item_records_inaccessible cwd _ Hbad), app_nil_r.
  now rewrite map_app, skip_notices_app, skip_notices_file.
Qed.
End SkipNotices.






(** ** The web interface: background scans *)

Section BackgroundScan.
Import ui_app.
Variable decode_error : list FileInfo -> string.
Variable cwd : list string.

Lemma perform_scan_on_directory (directory : string)
      (listing : option (list (string * Node))) (srv : Server) :
  perform_scan decode_error cwd directory (Some (NDir listing)) srv
  = after_scan decode_error
               (records_of cwd (Path.of_string directory) (NDir listing)) srv.
Proof.
  unfold perform_scan, after_scan. rewrite scan_directory_ui.
  unfold save_index_to_json, set_message.
  cbn [sink_state disk scan_status index_file
       is_scanning progress_message files_found].
  destruct (disk srv); try reflexivity.
  destruct (forallb json_encodable
                    (records_of cwd (Path.of_string directory) (NDir listing)));
    reflexivity.
Qed.

Lemma perform_scan_on_bad_root (directory : string) (target : option Node)
      (srv : Server) (e : Exception) :
  (forall status,
     scan_directory (Some progress_callback) cwd directory target
                    (mkScanner [] status)
     = (Raise e, mkScanner [] status)) ->
  perform_scan decode_error cwd directory target srv
  = mkServer (mkStatus false ("Error: " ++ exc_msg e) 0)
             (index_file srv) (disk srv).
Proof. intros Hscan. unfold perform_scan. now rewrite Hscan. Qed.
End BackgroundScan.

(** X19.  A background scan of a directory, when every write of the index
    file succeeds and the paths and names of the records are well-formed
    UTF-8, replaces the index file, whatever it held, by the records of the
    scan with their number as [total_files]; the status ends with
    [is_scanning] off, the completion message and that same number as
    [files_found], and [get_files] then answers with that number and those
    records. *)
Theorem perform_scan_completes
        (decode_error : list FileInfo -> string)
        (cwd : list string) (directory : string)
        (listing : option (list (string * Node))) (srv : ui_app.Server) :
  ui_app.disk srv = ui_app.Writable ->
  exists scanned,
    fst (scan_directory (S := unit) None cwd directory (Some (NDir listing))
                        (mkScanner [] tt)) = Ok scanned /\
    (forallb ui_app.json_encodable scanned = true ->
     let srv' := ui_app.perform_scan decode_error cwd directory
                                     (Some (NDir listing)) srv in
     ui_app.index_file srv'
     = ui_app.Stored (Some (List.length scanned)) (Some scanned) /\
     ui_app.get_scan_status srv'
     = ui_app.mkStatus false
         ("Scan complete! Found " ++ decimal (List.length scanned) ++ " files.")
         (List.length scanned) /\
     ui_app.get_files srv' = ui_app.Listing 200 (List.length scanned) scanned).
Proof.
  intros Hdisk.
  exists (records_of cwd (Path.of_string directory) (NDir listing)).
  split; [now rewrite scan_directory_result|].
  intros Hutf8 srv'. subst srv'.
  rewrite perform_scan_on_directory. unfold after_scan, ui_app.get_files,
    ui_app.get_scan_status.
  rewrite Hdisk, Hutf8. cbn [ui_app.index_file ui_app.scan_status].
  repeat split.
Qed.

Lemma perform_scan_completes_witness :
  let scanned := records_of ["home"] (Path.of_string "docs") sample_tree in
  let srv' := ui_app.perform_scan (fun _ => "Expecting value") ["home"] "docs"
                (Some sample_tree)
                (ui_app.mkServer (ui_app.mkStatus false "" 0)
                                 (ui_app.Unloadable "Expecting value")
                                 ui_app.Writable) in
  ui_app.index_file srv'
  = ui_app.Stored (Some (List.length scanned)) (Some scanned) /\
  ui_app.get_scan_status srv'
  = ui_app.mkStatus false
      ("Scan complete! Found " ++ decimal (List.length scanned) ++ " files.")
      (List.length scanned) /\
  ui_app.get_files srv' = ui_app.Listing 200 (List.length scanned) scanned.
Proof.
  intros scanned srv'.
  destruct (@perform_scan_completes (fun _ => "Expecting value") ["home"] "docs"
              (Some [ ("private", NDir None);
                      ("notes.txt", NFile (regular_file "abc")) ])
              (ui_app.mkServer (ui_app.mkStatus false "" 0)
                               (ui_app.Unloadable "Expecting value")
                               ui_app.Writable) eq_refl)
    as (found & Hfound & Hdone).
  rewrite scan_directory_result in Hfound. injection Hfound as <-.
  apply Hdone. vm_compute. reflexivity.
Defined.

(** X20.  A background scan never leaves [is_scanning] on.  When the root
    is missing, or is not a directory, or the index file cannot be opened
    for writing, the index file is left as it was, and in the first two
    cases nothing is counted and the status carries the error message of
    [scan_directory].  When the scan of a directory returns, the index file
    ends in one of three states: as it was (it could not be opened), holding
    the records of the scan, or emptied and not loadable, which happens when
    a write raises and when a path or a name among the records is not
    well-formed UTF-8; the status then carries an error and [get_files]
    answers 500. *)
Theorem perform_scan_fails_cleanly
        (decode_error : list FileInfo -> string)
        (cwd : list string) (directory : string) (target : option Node)
        (srv : ui_app.Server) :
  let srv' := ui_app.perform_scan decode_error cwd directory target srv in
  ui_app.is_scanning (ui_app.scan_status srv') = false /\
  (target = None ->
   ui_app.index_file srv' = ui_app.index_file srv /\
   ui_app.scan_status srv'
   = ui_app.mkStatus false ("Error: Directory does not exist: " ++ directory) 0) /\
  (Path.exists_ target = Ok true -> Path.is_dir target = Ok false ->
   ui_app.index_file srv' = ui_app.index_file srv /\
   ui_app.scan_status srv'
   = ui_app.mkStatus false ("Error: Path is not a directory: " ++ directory) 0) /\
  (ui_app.disk srv = ui_app.CannotOpen ->
   ui_app.index_file srv' = ui_app.index_file srv) /\
  (forall listing scanned,
     target = Some (NDir listing) ->
     fst (scan_directory (S := unit) None cwd directory target (mkScanner [] tt))
     = Ok scanned ->
     (ui_app.index_file srv' = ui_app.index_file srv /\
      ui_app.disk srv = ui_app.CannotOpen) \/
     (ui_app.index_file srv'
      = ui_app.Stored (Some (List.length scanned)) (Some scanned) /\
      ui_app.disk srv = ui_app.Writable /\
      forallb ui_app.json_encodable scanned = true) \/
     (ui_app.index_file srv' = ui_app.Unloadable (decode_error scanned) /\
      (ui_app.disk srv = ui_app.FailsWhileWriting \/
       forallb ui_app.json_encodable scanned = false) /\
      String.prefix "Error: "
                    (ui_app.progress_message (ui_app.scan_status srv')) = true /\
      ui_app.get_files srv'
      = ui_app.Failure 500
          ("Error reading index file: " ++ decode_error scanned))).
Proof.
  intros srv'. subst srv'.
  destruct target as [[d|listing| |]|].
  - rewrite (@perform_scan_on_bad_root decode_error cwd directory _ srv
               (mkExc ValueError ("Path is not a directory: " ++ directory)))
      by (intros; now apply scan_directory_not_a_directory).
    cbn. repeat split; auto; discriminate.
  - rewrite perform_scan_on_directory. unfold after_scan.
    split; [|split; [discriminate|split; [discriminate|split]]].
    + destruct (ui_app.disk srv); try reflexivity.
      now destruct (forallb ui_app.json_encodable _).
    + now intros ->.
    + intros listing' scanned [= <-] Hscan.
      rewrite scan_directory_result in Hscan. injection Hscan as <-.
      destruct (ui_app.disk srv) eqn:Hdisk.
      * left. split; reflexivity.
      * right. right. unfold ui_app.get_files.
        cbn [ui_app.index_file ui_app.scan_status ui_app.progress_message].
        repeat split; auto.
      * destruct (forallb ui_app.json_encodable
                          (records_of cwd (Path.of_string directory) (NDir listing)))
          eqn:Hutf8.
        -- right. left. split; [reflexivity|]. split; [reflexivity|exact Hutf8].
        -- right. right. unfold ui_app.get_files.
           cbn [ui_app.index_file ui_app.scan_status ui_app.progress_message].
           repeat split; auto.
  - rewrite (@perform_scan_on_bad_root decode_error cwd directory _ srv
               (mkExc ValueError ("Path is not a directory: " ++ directory)))
      by (intros; now apply scan_directory_not_a_directory).
    cbn. repeat split; auto; discriminate.
  - rewrite (@perform_scan_on_bad_root decode_error cwd directory _ srv
               permission_denied) by reflexivity.
    cbn. repeat split; auto; discriminate.
  - rewrite (@perform_scan_on_bad_root decode_error cwd directory _ srv
               (mkExc ValueError ("Directory does not exist: " ++ directory)))
      by (intros; apply scan_directory_missing).
    cbn. repeat split; auto; discriminate.
Qed.

Lemma perform_scan_fails_cleanly_witness :
  ui_app.index_file
    (ui_app.perform_scan (fun _ => "Expecting value") ["home"] "/nope" None
       (ui_app.mkServer (ui_app.mkStatus false "" 0)
                        (ui_app.Stored (Some 0) (Some [])) ui_app.Writable))
  = ui_app.Stored (Some 0) (Some []) /\
  ui_app.scan_status
    (ui_app.perform_scan (fun _ => "Expecting value") ["home"] "/nope" None
       (ui_app.mkServer (ui_app.mkStatus false "" 0)
                        (ui_app.Stored (Some 0) (Some [])) ui_app.Writable))
  = ui_app.mkStatus false "Error: Directory does not exist: /nope" 0.
Proof.
  destruct (@perform_scan_fails_cleanly (fun _ => "Expecting value") ["home"]
              "/nope" None
              (ui_app.mkServer (ui_app.mkStatus false "" 0)
                               (ui_app.Stored (Some 0) (Some [])) ui_app.Writable))
    as (_ & Hmissing & _).
  apply Hmissing. reflexivity.
Defined.

(** A scan of a directory that holds a file whose name is not UTF-8 costs
    the index it had: the file is left empty of records and not loadable. *)
Example perform_scan_loses_index :
  ui_app.index_file
    (ui_app.perform_scan (fun _ => "Expecting value") ["home"] "docs"
       (Some latin1_name_tree)
       (ui_app.mkServer (ui_app.mkStatus false "" 0)
                        (ui_app.Stored (Some 0) (Some [])) ui_app.Writable))
  = ui_app.Unloadable "Expecting value".
Proof. vm_compute. reflexivity. Qed.

(** X21.  For a request whose body is a JSON object in which [directory]
    is absent or a string: [start_scan] starts a background scan only when
    no scan is marked as running, the directory named is not empty and the
    path is a directory; it then replies 200, and the scan of that directory
    returns.  When, besides, the writes of the index file succeed and the
    records are well-formed UTF-8, [get_files] afterwards lists them.  In
    every other case [start_scan] replies 400 without success and starts
    nothing. *)
Theorem start_scan_starts_only_scannable
        (decode_error : list FileInfo -> string)
        (cwd : list string) (directory : option string) (target : option Node)
        (srv : ui_app.Server) :
  match ui_app.start_scan directory target srv with
  | (reply, Some started) =>
      reply = ui_app.mkReply 200 true "Scan started" /\
      directory = Some started /\ started <> "" /\
      ui_app.is_scanning (ui_app.scan_status srv) = false /\
      exists listing scanned,
        target = Some (NDir listing) /\
        fst (scan_directory (S := unit) None cwd started target (mkScanner [] tt))
        = Ok scanned /\
        (ui_app.disk srv = ui_app.Writable ->
         forallb ui_app.json_encodable scanned = true ->
         ui_app.get_files
           (ui_app.perform_scan decode_error cwd started target srv)
         = ui_app.Listing 200 (List.length scanned) scanned)
  | (reply, None) =>
      ui_app.code reply = 400 /\ ui_app.success reply = false
  end.
Proof.
  unfold ui_app.start_scan.
  destruct (ui_app.is_scanning (ui_app.scan_status srv)) eqn:Hrun;
    [split; reflexivity|].
  destruct directory as [d|]; [|split; reflexivity].
  destruct (String.eqb d "") eqn:Hd; [split; reflexivity|].
  apply String.eqb_neq in Hd.
  destruct target as [[f|listing| |]|]; try (split; reflexivity).
  cbn [ui_app.os_path_exists ui_app.os_path_isdir negb].
  repeat (split; [reflexivity || assumption|]).
  exists listing, (records_of cwd (Path.of_string d) (NDir listing)).
  split; [reflexivity|]. split; [now rewrite scan_directory_result|].
  intros Hdisk Hutf8. rewrite perform_scan_on_directory.
  unfold after_scan, ui_app.get_files. now rewrite Hdisk, Hutf8.
Qed.

Lemma start_scan_starts_only_scannable_witness :
  ui_app.get_files
    (ui_app.perform_scan (fun _ => "Expecting value") ["home"] "docs"
       (Some sample_tree)
       (ui_app.mkServer (ui_app.mkStatus false "" 0) ui_app.Absent
                        ui_app.Writable))
  = ui_app.Listing 200
      (List.length (records_of ["home"] (Path.of_string "docs") sample_tree))
      (records_of ["home"] (Path.of_string "docs") sample_tree).
Proof.
  pose proof (@start_scan_starts_only_scannable (fun _ => "Expecting value")
                ["home"] (Some "docs") (Some sample_tree)
                (ui_app.mkServer (ui_app.mkStatus false "" 0) ui_app.Absent
                                 ui_app.Writable))
    as H.
  change (ui_app.start_scan (Some "docs") (Some sample_tree)
            (ui_app.mkServer (ui_app.mkStatus false "" 0) ui_app.Absent
                             ui_app.Writable))
    with (ui_app.mkReply 200 true "Scan started", Some "docs") in H.
  cbv beta iota in H.
  destruct H as (_ & _ & _ & _ & listing & scanned & _ & Hscan & Hfiles).
  rewrite scan_directory_result in Hscan. injection Hscan as <-.
  apply Hfiles; [reflexivity | vm_compute; reflexivity].
Defined.
